(** * Sliding-window range-vector iterator (pkg/logql/range_vector.go)

    A shallow embedding of [rangeVectorIterator]: its constructor, [Next],
    [popBack], [load], [At] and the series pool, followed by the properties
    of the specification that were checked against it.

    Conventions.
    - [int64] values are integers of [Z]; every addition and subtraction of
      the source goes through [wrap64], Go's two's-complement wrap-around.
    - [float64] values are primitive binary64 floats.
    - Go maps are [gmap]s.  The order in which Go ranges over a map is
      unspecified, so the two loops that range over [r.window] are written
      over an explicit list of entries and every statement about them
      holds for each enumeration of the map.
    - The package-level [sync.Pool] is a free list threaded through the
      calls next to the iterator.
    - [load] may loop forever; it is given fuel, one unit per iteration of
      its [for] loop, and [None] means the fuel ran out. *)

From Stdlib Require Import ZArith Floats.
From stdpp Require Import gmap strings list fin_maps sorting.

Local Open Scope Z_scope.

(** ** int64 *)

Definition min_int64 : Z := - 2 ^ 63.
Definition max_int64 : Z := 2 ^ 63 - 1.

Definition wrap64 (z : Z) : Z := (z + 2 ^ 63) mod 2 ^ 64 - 2 ^ 63.

Definition add64 (a b : Z) : Z := wrap64 (a + b).
Definition sub64 (a b : Z) : Z := wrap64 (a - b).

(** ** Imported data types *)

(** The types of the Prometheus packages [labels] and [promql], with the
    fields range_vector.go reads and writes. *)

Module labels.
Record Label := mkLabel { Name : string; Value : string }.
Definition Labels := list Label.
End labels.

Module promql.
Record Point := mkPoint { T : Z; V : float }.
Record Series := mkSeries { Metric : labels.Labels; Points : list Point }.
Record Sample := mkSample { Sample_Point : Point; Sample_Metric : labels.Labels }.
Definition Vector := list Sample.
End promql.

(** Modelled from the spec: the [Sample] struct delivered by the sample
    source (its declaration is not part of range_vector.go): a series
    fingerprint, a timestamp in nanoseconds and a value. *)
Record Sample := mkSample { Labels : string; TimestampNano : Z; Value : float }.

(** Modelled from the spec: the [SeriesIterator] interface, a forward-only
    cursor over a finite sequence with one element of lookahead.  [Peek]
    does not consume; [Next] discards the head.  Two instrumentation fields
    record what the engine did to the source: [consumed] lists the samples
    discarded by [Next], most recent first, and [nextCalls] counts the
    invocations of [Next]. *)
Module SeriesIterator.

Record t := mk { pending : list Sample; consumed : list Sample; nextCalls : nat }.

Definition of_list (l : list Sample) : t := mk l [] 0.

Definition Peek (it : t) : option Sample := head (pending it).

Definition Next (it : t) : bool * t :=
  match pending it with
  | [] => (false, mk [] (consumed it) (S (nextCalls it)))
  | x :: rest => (true, mk rest (x :: consumed it) (S (nextCalls it)))
  end.

End SeriesIterator.

Definition RangeVectorAggregator := list promql.Point → float.

(** ** The iterator *)

Record rangeVectorIterator := mkRVI {
  iter : SeriesIterator.t;
  selRange : Z;
  step : Z;
  end_ : Z;
  current : Z;
  window : gmap string promql.Series;
  metrics : gmap string labels.Labels
}.

Definition set_iter (r : rangeVectorIterator) (it : SeriesIterator.t) :=
  mkRVI it (selRange r) (step r) (end_ r) (current r) (window r) (metrics r).
Definition set_current (r : rangeVectorIterator) (c : Z) :=
  mkRVI (iter r) (selRange r) (step r) (end_ r) c (window r) (metrics r).
Definition set_window (r : rangeVectorIterator) (w : gmap string promql.Series) :=
  mkRVI (iter r) (selRange r) (step r) (end_ r) (current r) w (metrics r).
Definition set_metrics (r : rangeVectorIterator) (m : gmap string labels.Labels) :=
  mkRVI (iter r) (selRange r) (step r) (end_ r) (current r) (window r) m.

(** The iterator together with the package-level [seriesPool].  The pool
    is a free list: [putSeries] pushes, [getSeries] pops. *)
Record state := mkState {
  rvi : rangeVectorIterator;
  seriesPool : list promql.Series
}.

Definition set_rvi (s : state) (r : rangeVectorIterator) := mkState r (seriesPool s).

Definition newRangeVectorIterator
    (it : SeriesIterator.t) (selRange step start end_ : Z) : rangeVectorIterator :=
  let step := if step =? 0 then 1 else step in
  mkRVI it selRange step end_ (sub64 start step) ∅ ∅.

(** [getSeries] resets the points of a pooled series and keeps its other
    fields; with an empty pool it allocates a series with no points.  The
    capacity of the point buffer is not modelled. *)
Definition getSeries (pool : list promql.Series) : promql.Series * list promql.Series :=
  match pool with
  | s :: pool' => (promql.mkSeries (promql.Metric s) [], pool')
  | [] => (promql.mkSeries [] [], [])
  end.

Definition putSeries (s : promql.Series) (pool : list promql.Series) : list promql.Series :=
  s :: pool.

(** *** popBack *)

(** The inner loop of [popBack]: [i] is the index of the head of [pts];
    the result is the pair [(lastPoint, remove)] at loop exit. *)
Fixpoint popBack_scan (newStart : Z) (i : nat) (pts : list promql.Point)
    (lastPoint : nat) (remove : bool) : nat * bool :=
  match pts with
  | [] => (lastPoint, remove)
  | p :: rest =>
      if promql.T p <=? newStart
      then popBack_scan newStart (S i) rest i true
      else (lastPoint, remove)
  end.

(** The points an entry holds after the body of the outer loop. *)
Definition popBack_points (newStart : Z) (pts : list promql.Point) : list promql.Point :=
  let '(lastPoint, remove) := popBack_scan newStart 0 pts 0%nat false in
  if remove then drop (lastPoint + 1) pts else pts.

(** One iteration of the outer loop, for the key [fp].  Go only ranges
    over keys of the map; for any other key the body does nothing. *)
Definition popBack_fp (newStart : Z) (s : state) (fp : string) : state :=
  match window (rvi s) !! fp with
  | None => s
  | Some series =>
      let series' := promql.mkSeries (promql.Metric series)
                       (popBack_points newStart (promql.Points series)) in
      if (length (promql.Points series') =? 0)%nat
      then mkState (set_window (rvi s) (delete fp (window (rvi s))))
                   (putSeries series' (seriesPool s))
      else mkState (set_window (rvi s) (<[fp := series']> (window (rvi s))))
                   (seriesPool s)
  end.

(** The outer loop, visiting the keys in the order [keys]. *)
Definition popBack_over (keys : list string) (newStart : Z) (s : state) : state :=
  foldl (popBack_fp newStart) s keys.

Definition popBack (newStart : Z) (s : state) : state :=
  popBack_over (map_to_list (window (rvi s))).*1 newStart s.

(** *** load *)

(** How an iteration of a [for] loop ends: the loop is left, by [return]
    or because its condition is false, or it goes round again. *)
Inductive loop (A : Type) := Return (a : A) | Continue (a : A).
Arguments Return {A} a.
Arguments Continue {A} a.

Section Engine.

(** [parser.ParseMetric]; [None] stands for a non-nil error. *)
Variable ParseMetric : string → option labels.Labels.

(** The lookup-or-create part of the loop body: the series the point goes
    to and the state after the cache and the window were updated, or [None]
    when [ParseMetric] failed and the body ran [continue]. *)
Definition load_series (sample : Sample) (s : state) : option (promql.Series * state) :=
  let r := rvi s in
  match window r !! Labels sample with
  | Some series => Some (series, s)
  | None =>
      let found :=
        match metrics r !! Labels sample with
        | Some metric => Some (metric, r)
        | None =>
            match ParseMetric (Labels sample) with
            | None => None
            | Some metric =>
                Some (metric, set_metrics r (<[Labels sample := metric]> (metrics r)))
            end
        end in
      match found with
      | None => None
      | Some (metric, r) =>
          let '(series, pool) := getSeries (seriesPool s) in
          let series := promql.mkSeries metric (promql.Points series) in
          Some (series, mkState (set_window r (<[Labels sample := series]> (window r))) pool)
      end
  end.

(** One iteration of the [for] loop, entered after [Peek]. *)
Definition load_iter (start end_ : Z) (s : state) : loop state :=
  match SeriesIterator.Peek (iter (rvi s)) with
  | None => Return s
  | Some sample =>
      if TimestampNano sample >? end_ then Return s
      else if TimestampNano sample <=? start
      then Continue (set_rvi s (set_iter (rvi s) (SeriesIterator.Next (iter (rvi s))).2))
      else
        match load_series sample s with
        | None => Continue s
        | Some (series, s) =>
            let p := promql.mkPoint (TimestampNano sample) (Value sample) in
            let series := promql.mkSeries (promql.Metric series) (promql.Points series ++ [p]) in
            let r := set_window (rvi s) (<[Labels sample := series]> (window (rvi s))) in
            Continue (set_rvi s (set_iter r (SeriesIterator.Next (iter r)).2))
        end
  end.

Fixpoint load (fuel : nat) (start end_ : Z) (s : state) : option state :=
  match fuel with
  | O => None
  | S fuel =>
      match load_iter start end_ s with
      | Return s' => Some s'
      | Continue s' => load fuel start end_ s'
      end
  end.

(** *** Next *)

Definition Next (fuel : nat) (s : state) : option (bool * state) :=
  let r := set_current (rvi s) (add64 (current (rvi s)) (step (rvi s))) in
  let s := set_rvi s r in
  if current r >? end_ r then Some (false, s)
  else
    let rangeEnd := current r in
    let rangeStart := sub64 (current r) (selRange r) in
    match load fuel rangeStart rangeEnd (popBack rangeStart s) with
    | None => None
    | Some s' => Some (true, s')
    end.

End Engine.


(** *** At *)

(** The loop of [At] over the series in the order [order]. *)
Definition At_over (order : list promql.Series) (aggregator : RangeVectorAggregator)
    (s : state) : (Z * promql.Vector) * state :=
  let ts := Z.quot (current (rvi s)) 1000000 in
  let result :=
    foldl (λ result series,
             result ++ [promql.mkSample
                          (promql.mkPoint ts (aggregator (promql.Points series)))
                          (promql.Metric series)])
          [] order in
  ((ts, result), s).

Definition At (aggregator : RangeVectorAggregator) (s : state) : (Z * promql.Vector) * state :=
  At_over (map_to_list (window (rvi s))).*2 aggregator s.

(** The output element [At] emits for one series. *)
Definition At_sample (ts : Z) (aggregator : RangeVectorAggregator)
    (series : promql.Series) : promql.Sample :=
  promql.mkSample (promql.mkPoint ts (aggregator (promql.Points series)))
                  (promql.Metric series).

(** [order] is an order in which Go may range over the window. *)
Definition window_order (s : state) (order : list promql.Series) : Prop :=
  order ≡ₚ (map_to_list (window (rvi s))).*2.

Definition window_keys (s : state) (keys : list string) : Prop :=
  keys ≡ₚ (map_to_list (window (rvi s))).*1.

(** Modelled from the spec: the [sum] aggregator of the end-to-end
    scenario (the aggregators live outside range_vector.go): the sum of the
    values of the points, accumulated from zero. *)
Definition sum_aggregator : RangeVectorAggregator :=
  λ pts, foldl (λ acc p, (acc + promql.V p)%float) 0%float pts.

(** ** Vocabulary of the statements *)

(** The points of a series are in non-decreasing timestamp order. *)
Definition ascending (pts : list promql.Point) : Prop :=
  Sorted (λ p q, promql.T p ≤ promql.T q) pts.

(** The longest prefix of [pts] whose timestamps are at most [newStart]. *)
Fixpoint expired (newStart : Z) (pts : list promql.Point) : list promql.Point :=
  match pts with
  | [] => []
  | p :: rest => if promql.T p <=? newStart then p :: expired newStart rest else []
  end.

(** What one iteration of the outer loop of [popBack] leaves of an entry:
    [None] when the entry is deleted. *)
Definition popBack_entry (newStart : Z) (series : promql.Series) : option promql.Series :=
  let pts := popBack_points newStart (promql.Points series) in
  if (length pts =? 0)%nat then None else Some (promql.mkSeries (promql.Metric series) pts).

(** The series [popBack] hands to [putSeries] when it visits [keys] in
    that order, first released first. *)
Definition released (newStart : Z) (w : gmap string promql.Series) (keys : list string)
    : list promql.Series :=
  omap (λ fp, series ← w !! fp;
              match popBack_entry newStart series with
              | None => Some (promql.mkSeries (promql.Metric series)
                                (popBack_points newStart (promql.Points series)))
              | Some _ => None
              end) keys.

(** The points the window holds for the fingerprint [fp]. *)
Definition points_of (w : gmap string promql.Series) (fp : string) : list promql.Point :=
  match w !! fp with
  | Some series => promql.Points series
  | None => []
  end.

(** The point [load] builds from a sample. *)
Definition sample_point (c : Sample) : promql.Point :=
  promql.mkPoint (TimestampNano c) (Value c).

(** The points that the samples [cs], consumed in that order, contribute
    to the entry of [fp] for a window that starts after [start]. *)
Definition ingested (start : Z) (fp : string) (cs : list Sample) : list promql.Point :=
  sample_point <$> filter (λ c, Labels c = fp ∧ start < TimestampNano c) cs.

(** The source delivers its samples in non-decreasing timestamp order. *)
Definition nondecreasing (src : list Sample) : Prop :=
  Sorted (λ a b, TimestampNano a ≤ TimestampNano b) src.

(** The fields of the iterator that only the constructor writes, and
    [current], which only [Next] writes. *)
Definition same_config (r r' : rangeVectorIterator) : Prop :=
  selRange r' = selRange r ∧ step r' = step r ∧ end_ r' = end_ r ∧ current r' = current r.

(** The state after a loop iteration that consumed the head [c] of the
    source. *)
Definition advanced (c : Sample) (rest : list Sample) (s s' : state) : Prop :=
  SeriesIterator.pending (iter (rvi s)) = c :: rest
  ∧ iter (rvi s') =
      SeriesIterator.mk rest (c :: SeriesIterator.consumed (iter (rvi s)))
                        (S (SeriesIterator.nextCalls (iter (rvi s))))
  ∧ same_config (rvi s) (rvi s')
  ∧ metrics (rvi s) ⊆ metrics (rvi s').

(** What [load] did to the source when it consumed the samples [cs], in
    that order. *)
Definition consumed_by (cs : list Sample) (it it' : SeriesIterator.t) : Prop :=
  SeriesIterator.pending it = cs ++ SeriesIterator.pending it'
  ∧ SeriesIterator.consumed it' = reverse cs ++ SeriesIterator.consumed it
  ∧ SeriesIterator.nextCalls it' = (SeriesIterator.nextCalls it + length cs)%nat.

(** The head of the source, if any, is later than [end_]. *)
Definition head_after (end_ : Z) (it : SeriesIterator.t) : Prop :=
  match SeriesIterator.pending it with
  | [] => True
  | c :: _ => end_ < TimestampNano c
  end.

(** ** Runs of the iterator *)

(** [calls] calls of [Next] in a row: the results in call order and the
    final state; [None] when one of the calls does not return within
    [fuel] loop iterations. *)
Fixpoint Next_n (ParseMetric : string → option labels.Labels) (fuel calls : nat)
    (s : state) : option (list bool * state) :=
  match calls with
  | O => Some ([], s)
  | S calls =>
      match Next ParseMetric fuel s with
      | None => None
      | Some (b, s') =>
          match Next_n ParseMetric fuel calls s' with
          | None => None
          | Some (bs, s'') => Some (b :: bs, s'')
          end
      end
  end.

(** The evaluator's loop [for it.Next() { ... }]: calls [Next] until it
    returns false, at most [calls] times; the result is the number of calls
    that returned true and the state after the call that returned false. *)
Fixpoint drive (ParseMetric : string → option labels.Labels) (fuel calls : nat)
    (s : state) : option (nat * state) :=
  match calls with
  | O => None
  | S calls =>
      match Next ParseMetric fuel s with
      | None => None
      | Some (false, s') => Some (O, s')
      | Some (true, s') =>
          match drive ParseMetric fuel calls s' with
          | None => None
          | Some (k, s'') => Some (S k, s'')
          end
      end
  end.

(** [reach s s']: [s'] is reached from [s] by calls of [Next]. *)
Inductive reach (ParseMetric : string → option labels.Labels) : state → state → Prop :=
| reach_refl s : reach ParseMetric s s
| reach_Next s s1 fuel b s2 :
    reach ParseMetric s s1 →
    Next ParseMetric fuel s1 = Some (b, s2) →
    reach ParseMetric s s2.

(** [run s s']: [s'] is reached from [s] by calls of [Next] none of which
    overflows [current + step]. *)
Inductive run (ParseMetric : string → option labels.Labels) : state → state → Prop :=
| run_refl s : run ParseMetric s s
| run_Next s s1 fuel b s2 :
    run ParseMetric s s1 →
    current (rvi s1) + step (rvi s1) ≤ max_int64 →
    Next ParseMetric fuel s1 = Some (b, s2) →
    run ParseMetric s s2.

(** Every point of the window has its timestamp in [(lo, hi]]. *)
Definition points_within (lo hi : Z) (s : state) : Prop :=
  ∀ fp p, p ∈ points_of (window (rvi s)) fp → lo < promql.T p ≤ hi.

(** The order facts the engine relies on: the pending samples are in
    non-decreasing order, the points of every entry are ascending, and no
    point of the window is later than a pending sample. *)
Definition ordered (s : state) : Prop :=
  nondecreasing (SeriesIterator.pending (iter (rvi s)))
  ∧ (∀ fp, ascending (points_of (window (rvi s)) fp))
  ∧ (∀ fp p c, p ∈ points_of (window (rvi s)) fp →
               c ∈ SeriesIterator.pending (iter (rvi s)) →
               promql.T p ≤ TimestampNano c).

(** The invariant of the states between two calls of [Next]. *)
Definition engine_inv (s : state) : Prop :=
  ordered s
  ∧ (∀ fp p, p ∈ points_of (window (rvi s)) fp → promql.T p ≤ current (rvi s))
  ∧ min_int64 ≤ current (rvi s) ≤ max_int64
  ∧ 1 ≤ step (rvi s).

(** The samples of the source in delivery order, consumed ones included. *)
Definition source_of (it : SeriesIterator.t) : list Sample :=
  reverse (SeriesIterator.consumed it) ++ SeriesIterator.pending it.

(** ** Concrete inputs *)

(** A stand-in label resolver for concrete runs: the bare metric name [A]
    resolves to the label set [{__name__="A"}]; every other string is
    rejected. *)
Definition parseOnlyA (s : string) : option labels.Labels :=
  if String.eqb s "A" then Some [labels.mkLabel "__name__" "A"] else None.

Definition labelsA : labels.Labels := [labels.mkLabel "__name__" "A"].

(** The end-to-end scenario: selector duration 5, step 5, start 0, end 10
    over three samples of the fingerprint [A]. *)
Definition scenario_source : list Sample :=
  [ mkSample "A" 0 1%float; mkSample "A" 3 2%float; mkSample "A" 11 3%float ].

Definition scenario_init : state :=
  mkState (newRangeVectorIterator (SeriesIterator.of_list scenario_source) 5 5 0 10) [].

(** The scenario after its first and after its third call of [Next]. *)
Definition scenario_first : state :=
  mkState (mkRVI (SeriesIterator.mk [mkSample "A" 3 2%float; mkSample "A" 11 3%float]
                    [mkSample "A" 0 1%float] 1)
             5 5 10 0
             {[ "A" := promql.mkSeries labelsA [promql.mkPoint 0 1%float] ]}
             {[ "A" := labelsA ]})
          [].

Definition scenario_third : state :=
  mkState (mkRVI (SeriesIterator.mk [mkSample "A" 11 3%float]
                    [mkSample "A" 3 2%float; mkSample "A" 0 1%float] 2)
             5 5 10 10 ∅ {[ "A" := labelsA ]})
          [promql.mkSeries labelsA []].

(** A window of two entries, one of which is wholly expired at bound 0. *)
Definition two_entries : state :=
  mkState (mkRVI (SeriesIterator.of_list []) 5 5 10 0
             (<[ "A" := promql.mkSeries labelsA
                          [promql.mkPoint 0 1%float; promql.mkPoint 3 2%float] ]>
                {[ "B" := promql.mkSeries [] [promql.mkPoint 0 5%float] ]})
             ∅)
          [].

(** A source whose head carries a fingerprint the resolver rejects, in
    front of the window (0, 5]. *)
Definition unresolved_head : state :=
  mkState (mkRVI (SeriesIterator.of_list [mkSample "{" 1 1%float; mkSample "A" 2 2%float])
             5 5 10 5 ∅ ∅)
          [].


(** An iterator whose last position is the largest int64. *)
Definition overflow_init : state :=
  mkState (newRangeVectorIterator
             (SeriesIterator.of_list [mkSample "A" max_int64 1%float])
             5 1 max_int64 max_int64) [].

(** An iterator that ends one short of the largest int64. *)
Definition late_init : state :=
  mkState (newRangeVectorIterator (SeriesIterator.of_list [])
             5 1 (max_int64 - 1) (max_int64 - 1)) [].

(** An iterator configured with a negative step. *)
Definition backward_init : state :=
  mkState (newRangeVectorIterator (SeriesIterator.of_list []) 5 (-1) 0 10) [].

(** ** Vocabulary of the further properties *)

(** No entry of the window is without points. *)
Definition nonempty_entries (s : state) : Prop :=
  ∀ fp series, window (rvi s) !! fp = Some series → promql.Points series ≠ [].

(** The labels cache holds results of [ParseMetric] only, and every entry
    of the window carries the cached labels of its fingerprint. *)
Definition cache_coherent (ParseMetric : string → option labels.Labels) (s : state) : Prop :=
  (∀ fp m, metrics (rvi s) !! fp = Some m → ParseMetric fp = Some m)
  ∧ (∀ fp series, window (rvi s) !! fp = Some series →
       metrics (rvi s) !! fp = Some (promql.Metric series)).

(** The sample [c] needs no successful parse, or gets one: its fingerprint
    has an entry in the window, or is in the labels cache, or parses. *)
Definition resolvable (ParseMetric : string → option labels.Labels) (s : state)
    (c : Sample) : Prop :=
  is_Some (window (rvi s) !! Labels c)
  ∨ is_Some (metrics (rvi s) !! Labels c)
  ∨ is_Some (ParseMetric (Labels c)).

(** The step the constructor stores for a configured step. *)
Definition effective_step (st : Z) : Z := if st =? 0 then 1 else st.

(** The number of window positions [start], [start + st], ... that are not
    beyond [e]. *)
Definition positions (st start e : Z) : nat :=
  if start <=? e then Z.to_nat ((e - start) / st + 1) else O.

(** The points of the samples of [src] that carry the fingerprint [fp] and
    a timestamp in [(lo, hi]], in source order. *)
Definition in_range_points (src : list Sample) (fp : string) (lo hi : Z)
    : list promql.Point :=
  sample_point <$> filter (λ c, Labels c = fp ∧ lo < TimestampNano c ≤ hi) src.

(** The window holds, of the samples consumed so far, those later than
    some bound [lo] that the next eviction bound will not fall below, and
    no consumed sample is later than [current]. *)
Definition slice_inv (s : state) : Prop :=
  Forall (λ c, TimestampNano c ≤ current (rvi s)) (SeriesIterator.consumed (iter (rvi s)))
  ∧ ∃ lo, lo ≤ current (rvi s) + step (rvi s) - selRange (rvi s)
      ∧ ∀ fp, points_of (window (rvi s)) fp
              = ingested lo fp (reverse (SeriesIterator.consumed (iter (rvi s)))).

(** ** Concrete inputs of the further properties *)

(** An iterator whose start is the smallest int64, so that [start - step]
    overflows at construction, with room for two positions. *)
Definition wrapping_init : state :=
  mkState (newRangeVectorIterator
             (SeriesIterator.of_list [mkSample "A" min_int64 1%float])
             5 5 min_int64 (min_int64 + 5)) [].

(** An instant query, start = end = 0, with a step of two milliseconds,
    and its state after the first call of [Next]. *)
Definition instant_init : state :=
  mkState (newRangeVectorIterator
             (SeriesIterator.of_list [mkSample "A" 0 1%float]) 5 2000000 0 0) [].

Definition instant_first : state :=
  mkState (mkRVI (SeriesIterator.mk [] [mkSample "A" 0 1%float] 1)
             5 2000000 0 0
             {[ "A" := promql.mkSeries labelsA [promql.mkPoint 0 1%float] ]}
             {[ "A" := labelsA ]})
          [].

(** A selector of duration 0 over a source of fingerprints the resolver
    rejects, and its state after the first call of [Next]. *)
Definition zero_width_init : state :=
  mkState (newRangeVectorIterator
             (SeriesIterator.of_list [mkSample "{" 0 1%float; mkSample "{" 3 2%float])
             0 5 0 10) [].

Definition zero_width_first : state :=
  mkState (mkRVI (SeriesIterator.mk [mkSample "{" 3 2%float] [mkSample "{" 0 1%float] 1)
             0 5 10 0 ∅ ∅)
          [].

(** The scenario started with a pool that holds a series with a stale
    metric and stale points. *)
Definition stale_pool_init : state :=
  mkState (rvi scenario_init)
          [promql.mkSeries [labels.mkLabel "stale" "x"] [promql.mkPoint 7 7%float]].

(** * Properties *)

(** ** int64 wrap-around *)

Lemma wrap64_id (z : Z) : min_int64 ≤ z ≤ max_int64 → wrap64 z = z.
Proof.
  unfold min_int64, max_int64, wrap64. intros H.
  rewrite Z.mod_small; lia.
Qed.

Lemma wrap64_range (z : Z) : min_int64 ≤ wrap64 z ≤ max_int64.
Proof.
  unfold min_int64, max_int64, wrap64.
  pose proof (Z.mod_pos_bound (z + 2 ^ 63) (2 ^ 64)). lia.
Qed.

Lemma add64_sub64 (a b : Z) : min_int64 ≤ a ≤ max_int64 → add64 (sub64 a b) b = a.
Proof.
  intros H. unfold add64, sub64, wrap64.
  replace ((a - b + 2 ^ 63) `mod` 2 ^ 64 - 2 ^ 63 + b + 2 ^ 63)
    with ((a - b + 2 ^ 63) `mod` 2 ^ 64 + b) by lia.
  rewrite <- (Z.add_mod_idemp_l). 2: lia.
  rewrite Z.mod_mod by lia. rewrite Z.add_mod_idemp_l by lia.
  replace (a - b + 2 ^ 63 + b) with (a + 2 ^ 63) by lia.
  unfold min_int64, max_int64 in H. rewrite Z.mod_small; lia.
Qed.

(** ** At *)

Lemma foldl_snoc_fmap {A B} (f : A → B) (l : list A) (acc : list B) :
  foldl (λ acc x, acc ++ [f x]) acc l = acc ++ (f <$> l).
Proof.
  revert acc. induction l as [|x l IH]; intros acc; simpl.
  - by rewrite app_nil_r.
  - rewrite IH. by rewrite <- app_assoc.
Qed.

Lemma At_over_eq order aggregator s :
  At_over order aggregator s =
  ((Z.quot (current (rvi s)) 1000000,
    At_sample (Z.quot (current (rvi s)) 1000000) aggregator <$> order), s).
Proof.
  unfold At_over. f_equal. f_equal.
  apply (foldl_snoc_fmap (At_sample _ aggregator) order []).
Qed.

Lemma window_order_length s order :
  window_order s order → length order = size (window (rvi s)).
Proof.
  unfold window_order. intros ->.
  by rewrite length_fmap, length_map_to_list.
Qed.

Lemma window_order_canonical s : window_order s (map_to_list (window (rvi s))).*2.
Proof. by unfold window_order. Qed.

Lemma window_order_elem s order series :
  window_order s order →
  series ∈ order ↔ ∃ fp, window (rvi s) !! fp = Some series.
Proof.
  unfold window_order. intros ->. rewrite list_elem_of_fmap. split.
  - intros [[fp x] [-> H]]. exists fp. by apply elem_of_map_to_list in H.
  - intros [fp H]. exists (fp, series). split; [done|]. by apply elem_of_map_to_list.
Qed.

(** C7. [At] returns, for every order in which the window may be ranged
    over, one output sample per series entry of the window store, in that
    order: value the aggregator applied to the entry's points, metric
    the entry's labels.  The timestamp returned and the timestamp of every
    sample emitted are [current] divided by 1,000,000, truncated toward
    zero. *)
Theorem At_one_sample_per_entry (aggregator : RangeVectorAggregator) (s : state)
    (order : list promql.Series) :
  window_order s order →
  let ts := (At_over order aggregator s).1.1 in
  let vec := (At_over order aggregator s).1.2 in
  vec = At_sample ts aggregator <$> order
  ∧ length vec = size (window (rvi s))
  ∧ (∀ fp series, window (rvi s) !! fp = Some series →
       At_sample ts aggregator series ∈ vec)
  ∧ (∀ smp, smp ∈ vec → promql.T (promql.Sample_Point smp) = ts)
  ∧ ts = Z.quot (current (rvi s)) 1000000
  ∧ Z.abs (1000000 * ts) ≤ Z.abs (current (rvi s))
  ∧ Z.abs (current (rvi s) - 1000000 * ts) < 1000000.
Proof.
  intros Hord. rewrite At_over_eq. cbn [fst snd].
  split; [done|]. split.
  { rewrite length_fmap. by apply window_order_length. }
  split.
  { intros fp series Hfp. apply list_elem_of_fmap. exists series. split; [done|].
    eapply window_order_elem; eauto. }
  split.
  { intros smp [series [-> _]]%list_elem_of_fmap. done. }
  split; [done|].
  pose proof (Z.quot_rem' (current (rvi s)) 1000000) as Hqr.
  pose proof (Z.rem_bound_abs (current (rvi s)) 1000000 ltac:(lia)) as Hb.
  pose proof (Z.rem_sign_mul (current (rvi s)) 1000000 ltac:(lia)) as Hsg.
  set (c := current (rvi s)) in *. set (q := c ÷ 1000000) in *.
  set (r := Z.rem c 1000000) in *.
  split; nia.
Qed.

(** C10. [At] only observes: the state it leaves (current, window store,
    labels cache, sample source with its call counter, pool) is the state
    it was given, so a second call with the same aggregator returns the
    same timestamp and the same samples, position by position when the
    window is ranged over in the same order and up to the order of the
    vector otherwise. *)
Theorem At_observation_only (aggregator : RangeVectorAggregator) (s : state)
    (order1 order2 : list promql.Series) :
  window_order s order1 → window_order s order2 →
  let first := At_over order1 aggregator s in
  let second := At_over order2 aggregator first.2 in
  first.2 = s
  ∧ SeriesIterator.nextCalls (iter (rvi first.2)) = SeriesIterator.nextCalls (iter (rvi s))
  ∧ second.2 = s
  ∧ second.1.1 = first.1.1
  ∧ second.1.2 ≡ₚ first.1.2
  ∧ (order1 = order2 → second.1.2 = first.1.2).
Proof.
  intros H1 H2. rewrite !At_over_eq. cbn [fst snd]. rewrite !At_over_eq. cbn [fst snd].
  repeat split; try done.
  - apply fmap_Permutation. unfold window_order in *. by rewrite H1, H2.
  - by intros ->.
Qed.

(** ** popBack *)

Lemma popBack_scan_expired newStart i pts lastPoint remove :
  popBack_scan newStart i pts lastPoint remove =
  match length (expired newStart pts) with
  | O => (lastPoint, remove)
  | S k => ((i + k)%nat, true)
  end.
Proof.
  revert i lastPoint remove. induction pts as [|p rest IH]; intros i lastPoint remove; simpl.
  - done.
  - destruct (promql.T p <=? newStart); simpl; [|done].
    rewrite IH. destruct (length (expired newStart rest)); f_equal; lia.
Qed.

Lemma popBack_points_drop newStart pts :
  popBack_points newStart pts = drop (length (expired newStart pts)) pts.
Proof.
  unfold popBack_points. rewrite popBack_scan_expired.
  destruct (length (expired newStart pts)) as [|k]; simpl; [done|].
  by replace (k + 1)%nat with (S k) by lia.
Qed.

Lemma expired_app newStart pts :
  pts = expired newStart pts ++ popBack_points newStart pts.
Proof.
  rewrite popBack_points_drop.
  induction pts as [|p rest IH]; simpl; [done|].
  destruct (promql.T p <=? newStart); simpl; [|done]. by f_equal.
Qed.

Lemma expired_le newStart pts :
  Forall (λ p, promql.T p ≤ newStart) (expired newStart pts).
Proof.
  induction pts as [|p rest IH]; simpl; [constructor|].
  destruct (promql.T p <=? newStart) eqn:E; constructor; [lia|done].
Qed.

Lemma popBack_points_head newStart pts p rest :
  popBack_points newStart pts = p :: rest → newStart < promql.T p.
Proof.
  rewrite popBack_points_drop.
  induction pts as [|q pts IH]; simpl; [done|].
  destruct (promql.T q <=? newStart) eqn:E; simpl.
  - done.
  - intros [= -> _]. lia.
Qed.

Lemma ascending_strongly pts :
  ascending pts → StronglySorted (λ p q, promql.T p ≤ promql.T q) pts.
Proof.
  apply Sorted_StronglySorted. intros p q r. lia.
Qed.

Lemma popBack_points_gt newStart pts :
  ascending pts → Forall (λ p, newStart < promql.T p) (popBack_points newStart pts).
Proof.
  intros Hasc%ascending_strongly.
  rewrite (expired_app newStart pts) in Hasc.
  apply StronglySorted_app in Hasc as (_ & _ & Hkept).
  destruct (popBack_points newStart pts) as [|p rest] eqn:E; [constructor|].
  apply popBack_points_head in E.
  apply StronglySorted_cons in Hkept as [Hrest _].
  constructor; [done|]. eapply Forall_impl; [exact Hrest|]. simpl. lia.
Qed.

Lemma popBack_points_ascending newStart pts :
  ascending pts → ascending (popBack_points newStart pts).
Proof.
  unfold ascending. intros H. rewrite popBack_points_drop.
  generalize (length (expired newStart pts)). intros n. revert pts H.
  induction n as [|n IH]; intros pts H; [by rewrite drop_0|].
  destruct pts as [|p pts]; [done|]. simpl. apply IH. by inversion H.
Qed.

Lemma popBack_fp_window newStart s k fp :
  window (rvi (popBack_fp newStart s k)) !! fp =
  if decide (fp = k) then window (rvi s) !! k ≫= popBack_entry newStart
  else window (rvi s) !! fp.
Proof.
  unfold popBack_fp, popBack_entry.
  destruct (window (rvi s) !! k) as [series|] eqn:E; simpl.
  - destruct (length _ =? 0)%nat; simpl; case_decide; subst;
      rewrite ?lookup_delete_eq, ?lookup_insert_eq, ?lookup_delete_ne, ?lookup_insert_ne;
      done.
  - case_decide; by subst.
Qed.

Lemma popBack_fp_pool newStart s k :
  seriesPool (popBack_fp newStart s k) =
  released newStart (window (rvi s)) [k] ++ seriesPool s.
Proof.
  unfold popBack_fp, released, popBack_entry. simpl.
  destruct (window (rvi s) !! k) as [series|]; simpl; [|done].
  by destruct (length _ =? 0)%nat.
Qed.

Lemma popBack_fp_frame newStart s k :
  let r := rvi s in let r' := rvi (popBack_fp newStart s k) in
  iter r' = iter r ∧ selRange r' = selRange r ∧ step r' = step r
  ∧ end_ r' = end_ r ∧ current r' = current r ∧ metrics r' = metrics r.
Proof.
  unfold popBack_fp. destruct (window (rvi s) !! k); [|done].
  by destruct (length _ =? 0)%nat.
Qed.

Lemma popBack_over_frame keys newStart s :
  let r := rvi s in let r' := rvi (popBack_over keys newStart s) in
  iter r' = iter r ∧ selRange r' = selRange r ∧ step r' = step r
  ∧ end_ r' = end_ r ∧ current r' = current r ∧ metrics r' = metrics r.
Proof.
  revert s. induction keys as [|k keys IH]; intros s; [done|].
  unfold popBack_over in *. simpl.
  destruct (IH (popBack_fp newStart s k)) as (-> & -> & -> & -> & -> & ->).
  apply popBack_fp_frame.
Qed.

Lemma popBack_over_window keys newStart s fp :
  NoDup keys →
  window (rvi (popBack_over keys newStart s)) !! fp =
  if decide (fp ∈ keys) then window (rvi s) !! fp ≫= popBack_entry newStart
  else window (rvi s) !! fp.
Proof.
  intros Hnd. revert s. induction Hnd as [|k keys Hk Hnd IH]; intros s.
  - destruct (decide (fp ∈ [])) as [Hin|_]; [by apply elem_of_nil in Hin|done].
  - unfold popBack_over in *. simpl. rewrite IH, !popBack_fp_window.
    destruct (decide (fp = k)) as [->|Hne].
    + rewrite decide_False by done. rewrite decide_True by (by left). done.
    + destruct (decide (fp ∈ keys)) as [Hin|Hin].
      * rewrite decide_True by (by right). done.
      * rewrite decide_False; [done|]. by intros [?|?]%elem_of_cons.
Qed.

Lemma released_other newStart s k keys :
  k ∉ keys →
  released newStart (window (rvi (popBack_fp newStart s k))) keys =
  released newStart (window (rvi s)) keys.
Proof.
  intros Hk. unfold released. apply list_omap_ext, Forall_Forall2_diag, Forall_forall.
  intros fp Hfp. rewrite popBack_fp_window. case_decide; [set_solver|done].
Qed.

Lemma popBack_over_pool keys newStart s :
  NoDup keys →
  seriesPool (popBack_over keys newStart s) =
  reverse (released newStart (window (rvi s)) keys) ++ seriesPool s.
Proof.
  intros Hnd. revert s. induction Hnd as [|k keys Hk Hnd IH]; intros s; [done|].
  unfold popBack_over in *. simpl foldl. rewrite IH, released_other, popBack_fp_pool by done.
  change (k :: keys) with ([k] ++ keys). unfold released at 3.
  rewrite omap_app. fold (released newStart (window (rvi s)) [k]).
  fold (released newStart (window (rvi s)) keys).
  rewrite reverse_app, <- app_assoc. f_equal. f_equal.
  unfold released. simpl. by destruct (_ ≫= _).
Qed.

Lemma window_keys_NoDup s keys : window_keys s keys → NoDup keys.
Proof. unfold window_keys. intros ->. apply NoDup_fst_map_to_list. Qed.

Lemma window_keys_elem s keys fp :
  window_keys s keys → fp ∈ keys ↔ is_Some (window (rvi s) !! fp).
Proof.
  unfold window_keys. intros ->. rewrite list_elem_of_fmap. split.
  - intros [[k x] [-> H]]. apply elem_of_map_to_list in H. by exists x.
  - intros [x H]. exists (fp, x). split; [done|]. by apply elem_of_map_to_list.
Qed.

Lemma popBack_over_lookup keys newStart s fp :
  window_keys s keys →
  window (rvi (popBack_over keys newStart s)) !! fp =
  window (rvi s) !! fp ≫= popBack_entry newStart.
Proof.
  intros Hk. rewrite popBack_over_window by (by eapply window_keys_NoDup).
  case_decide as Hin; [done|].
  rewrite (window_keys_elem s keys fp Hk) in Hin.
  destruct (window (rvi s) !! fp); [|done]. by destruct Hin.
Qed.

Lemma released_elem newStart s keys x :
  window_keys s keys →
  x ∈ released newStart (window (rvi s)) keys ↔
  ∃ fp series, window (rvi s) !! fp = Some series
    ∧ popBack_points newStart (promql.Points series) = []
    ∧ x = promql.mkSeries (promql.Metric series) [].
Proof.
  intros Hk. unfold released. rewrite list_elem_of_omap. split.
  - intros (fp & Hfp & Hx). destruct (window (rvi s) !! fp) as [series|] eqn:E; [|done].
    simpl in Hx. unfold popBack_entry in Hx.
    destruct (popBack_points newStart (promql.Points series)) eqn:Ep; [|done].
    simpl in Hx. exists fp, series. by inversion Hx.
  - intros (fp & series & Hfp & Hp & ->). exists fp. split.
    + apply (window_keys_elem s keys fp Hk). by exists series.
    + rewrite Hfp. simpl. unfold popBack_entry. by rewrite Hp.
Qed.

(** C3. Eviction with bound [newStart], whatever the order in which the
    window is ranged over: the points of an entry split into a removed
    prefix with [T <= newStart] and a kept suffix, in their original order,
    with [T > newStart]; an entry with a non-empty kept suffix stays in the
    window with exactly those points; an entry whose points are all removed
    is deleted from the window and its series is handed to the pool in the
    same call; nothing else enters the window or the pool. *)
Theorem popBack_evicts (keys : list string) (newStart : Z) (s : state) :
  window_keys s keys →
  (∀ fp series, window (rvi s) !! fp = Some series → ascending (promql.Points series)) →
  let s' := popBack_over keys newStart s in
  (∀ fp series, window (rvi s) !! fp = Some series →
     ∃ removed kept,
       promql.Points series = removed ++ kept
       ∧ Forall (λ p, promql.T p ≤ newStart) removed
       ∧ Forall (λ p, newStart < promql.T p) kept
       ∧ (kept ≠ [] →
            window (rvi s') !! fp = Some (promql.mkSeries (promql.Metric series) kept))
       ∧ (kept = [] →
            window (rvi s') !! fp = None
            ∧ promql.mkSeries (promql.Metric series) [] ∈ seriesPool s'))
  ∧ (∀ fp, window (rvi s) !! fp = None → window (rvi s') !! fp = None)
  ∧ (∀ fp series', window (rvi s') !! fp = Some series' → promql.Points series' ≠ [])
  ∧ (∀ x, x ∈ seriesPool s' ↔
          x ∈ seriesPool s
          ∨ ∃ fp series, window (rvi s) !! fp = Some series
              ∧ Forall (λ p, promql.T p ≤ newStart) (promql.Points series)
              ∧ x = promql.mkSeries (promql.Metric series) []).
Proof.
  intros Hk Hasc s'.
  assert (Hpool : ∀ x, x ∈ seriesPool s' ↔
            x ∈ seriesPool s ∨ x ∈ released newStart (window (rvi s)) keys).
  { intros x. unfold s'. rewrite popBack_over_pool by (by eapply window_keys_NoDup).
    rewrite elem_of_app, elem_of_reverse. tauto. }
  split; [|split; [|split]].
  - intros fp series Hfp.
    exists (expired newStart (promql.Points series)),
           (popBack_points newStart (promql.Points series)).
    split; [apply expired_app|]. split; [apply expired_le|].
    split; [apply popBack_points_gt; eauto|].
    unfold s'. rewrite popBack_over_lookup, Hfp by done. simpl. unfold popBack_entry.
    split.
    + intros Hne. by destruct (popBack_points newStart (promql.Points series)).
    + intros Hnil. rewrite Hnil. split; [done|].
      apply Hpool. right. apply released_elem; [done|]. by exists fp, series.
  - intros fp Hfp. unfold s'. by rewrite popBack_over_lookup, Hfp.
  - intros fp series'. unfold s'. rewrite popBack_over_lookup by done.
    destruct (window (rvi s) !! fp) as [series|]; [|done]. simpl. unfold popBack_entry.
    destruct (popBack_points newStart (promql.Points series)) eqn:E; [done|].
    simpl. by intros [= <-].
  - intros x. rewrite Hpool, released_elem by done.
    split; (intros [?|(fp & series & Hfp & Hp & ->)]; [by left|right]);
      exists fp, series; (split; [done|]); (split; [|done]).
    + rewrite (expired_app newStart (promql.Points series)), Hp, app_nil_r.
      apply expired_le.
    + pose proof (popBack_points_gt newStart _ (Hasc _ _ Hfp)) as Hgt.
      destruct (popBack_points newStart (promql.Points series)) as [|p rest] eqn:E; [done|].
      apply Forall_cons in Hgt as [Hgt _].
      assert (p ∈ promql.Points series) as Hin.
      { rewrite (expired_app newStart (promql.Points series)), E.
        apply elem_of_app. right. by left. }
      rewrite Forall_forall in Hp. specialize (Hp p Hin). lia.
Qed.

(** ** load *)

Lemma points_of_insert w l series fp :
  points_of (<[l := series]> w) fp =
  if decide (fp = l) then promql.Points series else points_of w fp.
Proof.
  unfold points_of. case_decide as E.
  - subst. by rewrite lookup_insert_eq.
  - by rewrite lookup_insert_ne.
Qed.

Lemma ingested_cons start fp c cs :
  ingested start fp (c :: cs) = ingested start fp [c] ++ ingested start fp cs.
Proof.
  unfold ingested. change (c :: cs) with ([c] ++ cs). by rewrite filter_app, fmap_app.
Qed.

Lemma ingested_app start fp cs1 cs2 :
  ingested start fp (cs1 ++ cs2) = ingested start fp cs1 ++ ingested start fp cs2.
Proof. unfold ingested. by rewrite filter_app, fmap_app. Qed.

Lemma ingested_one start fp c :
  ingested start fp [c] =
  if decide (Labels c = fp ∧ start < TimestampNano c) then [sample_point c] else [].
Proof.
  unfold ingested. rewrite filter_cons, filter_nil. by case_decide.
Qed.


Section Load.

Variable ParseMetric : string → option labels.Labels.

Lemma load_series_None c s :
  load_series ParseMetric c s = None ↔
  window (rvi s) !! Labels c = None ∧ metrics (rvi s) !! Labels c = None
  ∧ ParseMetric (Labels c) = None.
Proof.
  unfold load_series.
  destruct (window (rvi s) !! Labels c); [by split; [|intros (? & _)]|].
  destruct (metrics (rvi s) !! Labels c).
  { destruct (getSeries (seriesPool s)). by split; [|intros (_ & ? & _)]. }
  destruct (ParseMetric (Labels c)); [|done].
  destruct (getSeries (seriesPool s)). by split; [|intros (_ & _ & ?)].
Qed.

Lemma getSeries_empty pool : promql.Points (getSeries pool).1 = [].
Proof. by destruct pool. Qed.

Lemma load_series_Some c s series s1 :
  load_series ParseMetric c s = Some (series, s1) →
  promql.Points series = points_of (window (rvi s)) (Labels c)
  ∧ (∀ fp, fp ≠ Labels c → window (rvi s1) !! fp = window (rvi s) !! fp)
  ∧ iter (rvi s1) = iter (rvi s)
  ∧ same_config (rvi s) (rvi s1)
  ∧ metrics (rvi s) ⊆ metrics (rvi s1).
Proof.
  unfold load_series, points_of.
  destruct (window (rvi s) !! Labels c) as [old|] eqn:Ew.
  { intros [= <- <-]. by repeat split. }
  pose proof (getSeries_empty (seriesPool s)) as Hempty.
  destruct (metrics (rvi s) !! Labels c) as [metric|] eqn:Em.
  - destruct (getSeries (seriesPool s)) as [fresh pool]. intros [= <- <-]. simpl.
    repeat split; try done. intros fp Hfp. by rewrite lookup_insert_ne.
  - destruct (ParseMetric (Labels c)) as [metric|]; [|done].
    destruct (getSeries (seriesPool s)) as [fresh pool]. intros [= <- <-]. simpl.
    repeat split; try done.
    + intros fp Hfp. by rewrite lookup_insert_ne.
    + by apply insert_subseteq.
Qed.

Lemma load_iter_Return start end_ s s' :
  load_iter ParseMetric start end_ s = Return s' →
  s' = s ∧ match SeriesIterator.pending (iter (rvi s)) with
           | [] => True
           | c :: _ => end_ < TimestampNano c
           end.
Proof.
  unfold load_iter, SeriesIterator.Peek.
  destruct (SeriesIterator.pending (iter (rvi s))) as [|c rest]; simpl.
  { by intros [= ->]. }
  destruct (TimestampNano c >? end_) eqn:E1.
  { intros [= ->]. split; [done|lia]. }
  destruct (TimestampNano c <=? start); [done|].
  by destruct (load_series ParseMetric c s) as [[series s1]|].
Qed.

Lemma load_iter_Continue start end_ s s' :
  load_iter ParseMetric start end_ s = Continue s' →
  ∃ c rest, SeriesIterator.pending (iter (rvi s)) = c :: rest
    ∧ TimestampNano c ≤ end_
    ∧ ((s' = s ∧ start < TimestampNano c ∧ load_series ParseMetric c s = None)
       ∨ (advanced c rest s s'
          ∧ (TimestampNano c ≤ start →
               window (rvi s') = window (rvi s) ∧ metrics (rvi s') = metrics (rvi s)
               ∧ seriesPool s' = seriesPool s)
          ∧ (∀ fp, points_of (window (rvi s')) fp =
                   points_of (window (rvi s)) fp ++ ingested start fp [c])
          ∧ (∀ fp, is_Some (window (rvi s') !! fp) ↔
                   is_Some (window (rvi s) !! fp)
                   ∨ (Labels c = fp ∧ start < TimestampNano c)))).
Proof.
  unfold load_iter, SeriesIterator.Peek, SeriesIterator.Next.
  destruct (SeriesIterator.pending (iter (rvi s))) as [|c rest] eqn:Ep; simpl; [done|].
  destruct (TimestampNano c >? end_) eqn:E1; [done|].
  destruct (TimestampNano c <=? start) eqn:E2.
  { intros [= <-]. exists c, rest. split; [done|]. split; [lia|]. right.
    unfold advanced. simpl. rewrite Ep. simpl. repeat split; try done.
    - intros fp. rewrite ingested_one. case_decide; [lia|]. by rewrite app_nil_r.
    - tauto.
    - intros [?|[_ ?]]; [done|lia]. }
  destruct (load_series ParseMetric c s) as [[series s1]|] eqn:Els.
  2:{ intros [= <-]. exists c, rest. split; [done|]. split; [lia|]. left.
      split; [done|]. split; [lia|done]. }
  apply load_series_Some in Els as (Hpts & Hother & Hiter & Hcfg & Hm).
  intros [= <-]. exists c, rest. split; [done|]. split; [lia|]. right.
  unfold advanced. simpl. rewrite Hiter, Ep. simpl.
  split; [done|]. split; [intros; lia|]. split.
  - intros fp. rewrite points_of_insert, ingested_one.
    case_decide as E; subst.
    + rewrite decide_True by (split; [done|lia]). by rewrite Hpts.
    + rewrite decide_False by (intros [? _]; done). rewrite app_nil_r.
      unfold points_of. by rewrite Hother.
  - intros fp. destruct (decide (fp = Labels c)) as [->|E].
    + rewrite lookup_insert_eq. split; [intros _; right; split; [done|lia]|by eexists].
    + rewrite lookup_insert_ne, Hother by done.
      split; [tauto|]. intros [?|[? _]]; [done|congruence].
Qed.

Lemma load_fuel_mono fuel fuel' start end_ s s' :
  load ParseMetric fuel start end_ s = Some s' → (fuel ≤ fuel')%nat →
  load ParseMetric fuel' start end_ s = Some s'.
Proof.
  revert fuel' s. induction fuel as [|fuel IH]; intros fuel' s; [done|].
  intros H Hle. destruct fuel' as [|fuel']; [lia|]. simpl in *.
  destruct (load_iter ParseMetric start end_ s); [done|].
  apply IH; [done|lia].
Qed.

End Load.

Section LoadLoop.

Variable ParseMetric : string → option labels.Labels.

Lemma consumed_by_nil it : consumed_by [] it it.
Proof. unfold consumed_by. simpl. repeat split; done || lia. Qed.

Lemma consumed_by_cons c rest cs s s' it'' :
  advanced c rest s s' → consumed_by cs (iter (rvi s')) it'' →
  consumed_by (c :: cs) (iter (rvi s)) it''.
Proof.
  intros (Hp & Hit & _) (Hp' & Hc' & Hn'). rewrite Hit in *. simpl in *.
  unfold consumed_by. rewrite Hp, Hp', Hc', Hn', reverse_cons, <- app_assoc. simpl.
  repeat split; done || lia.
Qed.

Lemma same_config_trans r1 r2 r3 :
  same_config r1 r2 → same_config r2 r3 → same_config r1 r3.
Proof. unfold same_config. intros (-> & -> & -> & ->) (-> & -> & -> & ->). done. Qed.

(** What a terminating run of the loop of [load] does. *)
Lemma load_spec fuel start end_ s s' :
  load ParseMetric fuel start end_ s = Some s' →
  ∃ cs, consumed_by cs (iter (rvi s)) (iter (rvi s'))
    ∧ Forall (λ c, TimestampNano c ≤ end_) cs
    ∧ head_after end_ (iter (rvi s'))
    ∧ (∀ fp, points_of (window (rvi s')) fp =
             points_of (window (rvi s)) fp ++ ingested start fp cs)
    ∧ (∀ fp, is_Some (window (rvi s') !! fp) ↔
             is_Some (window (rvi s) !! fp)
             ∨ ∃ c, c ∈ cs ∧ Labels c = fp ∧ start < TimestampNano c)
    ∧ same_config (rvi s) (rvi s')
    ∧ metrics (rvi s) ⊆ metrics (rvi s').
Proof.
  revert s. induction fuel as [|fuel IH]; intros s; [done|]. simpl.
  destruct (load_iter ParseMetric start end_ s) as [s1|s1] eqn:E.
  - intros [= <-]. apply load_iter_Return in E as [-> Hhead].
    exists []. split; [apply consumed_by_nil|]. split; [constructor|].
    split; [done|]. split; [intros; by rewrite app_nil_r|].
    split; [|done]. intros fp. split; [tauto|].
    intros [?|(c & Hc & _)]; [done|]. by apply elem_of_nil in Hc.
  - intros Hload.
    apply load_iter_Continue in E as (c & rest & Hp & Hle & [(-> & _)|(Hadv & _ & Hpts & Hdom)]).
    { by apply IH. }
    apply IH in Hload as (cs & Hcons & Hall & Hhead & Hpts' & Hdom' & Hcfg' & Hm').
    exists (c :: cs). split; [by eapply consumed_by_cons|].
    split; [by constructor|]. split; [done|]. split.
    { intros fp. rewrite Hpts', Hpts. rewrite (ingested_cons start fp c cs).
      by rewrite app_assoc. }
    destruct Hadv as (_ & _ & Hcfg & Hm).
    split; [|split; [by eapply same_config_trans|by etrans]].
    intros fp. rewrite Hdom', Hdom. split.
    + intros [[?|[? ?]]|(c' & Hc' & ?)]; [by left|right..].
      * exists c. split; [by left|done].
      * exists c'. split; [by right|done].
    + intros [?|(c' & [->|Hc']%elem_of_cons & ?)]; [by left; left|by left; right|].
      right. by exists c'.
Qed.

(** The loop terminates, within one iteration per pending sample and one
    more, when the fingerprint of every pending sample parses. *)
Lemma load_terminates fuel start end_ s :
  Forall (λ c, is_Some (ParseMetric (Labels c))) (SeriesIterator.pending (iter (rvi s))) →
  (length (SeriesIterator.pending (iter (rvi s))) < fuel)%nat →
  is_Some (load ParseMetric fuel start end_ s).
Proof.
  revert s. induction fuel as [|fuel IH]; intros s Hall Hlen; [lia|]. simpl.
  destruct (load_iter ParseMetric start end_ s) as [s1|s1] eqn:E; [by eexists|].
  apply load_iter_Continue in E
    as (c & rest & Hp & Hle & [(-> & _ & Hnone)|((_ & Hit & _) & _)]).
  - apply load_series_None in Hnone as (_ & _ & Hnone).
    rewrite Hp in Hall. apply Forall_cons in Hall as [[? Hsome] _]. congruence.
  - rewrite Hp in Hall, Hlen. apply Forall_cons in Hall as [_ Hall]. simpl in Hlen.
    apply IH; rewrite Hit; simpl; [done|lia].
Qed.

(** C1 (what the code does).  When the head of the source lies inside the
    window, its fingerprint is neither in the window store nor in the labels
    cache, and [ParseMetric] rejects it, the loop body runs [continue]
    without calling [Next] on the source: the iteration leaves the state as
    it found it, the same sample is peeked again, and [load] does not
    return, whatever the number of iterations it is given. *)
Theorem load_unresolved_sample_loops (start end_ : Z) (s : state)
    (c : Sample) (rest : list Sample) :
  SeriesIterator.pending (iter (rvi s)) = c :: rest →
  start < TimestampNano c ≤ end_ →
  window (rvi s) !! Labels c = None →
  metrics (rvi s) !! Labels c = None →
  ParseMetric (Labels c) = None →
  load_iter ParseMetric start end_ s = Continue s
  ∧ ∀ fuel, load ParseMetric fuel start end_ s = None.
Proof.
  intros Hp [Hgt Hle] Hw Hm Hparse.
  assert (Hiter : load_iter ParseMetric start end_ s = Continue s).
  { unfold load_iter, SeriesIterator.Peek. rewrite Hp. simpl.
    destruct (TimestampNano c >? end_) eqn:E1; [lia|].
    destruct (TimestampNano c <=? start) eqn:E2; [lia|].
    assert (load_series ParseMetric c s = None) as -> by (by apply load_series_None).
    done. }
  split; [done|]. intros fuel. induction fuel as [|fuel IH]; [done|].
  simpl. by rewrite Hiter.
Qed.




End LoadLoop.

(** ** Next *)

Lemma window_keys_canonical s : window_keys s (map_to_list (window (rvi s))).*1.
Proof. by unfold window_keys. Qed.

Lemma points_of_popBack_over keys newStart s fp :
  window_keys s keys →
  points_of (window (rvi (popBack_over keys newStart s))) fp =
  popBack_points newStart (points_of (window (rvi s)) fp).
Proof.
  intros Hk. unfold points_of. rewrite popBack_over_lookup by done.
  destruct (window (rvi s) !! fp) as [series|]; [|done]. simpl. unfold popBack_entry.
  by destruct (popBack_points newStart (promql.Points series)).
Qed.

Lemma points_of_popBack newStart s fp :
  points_of (window (rvi (popBack newStart s))) fp =
  popBack_points newStart (points_of (window (rvi s)) fp).
Proof. apply points_of_popBack_over, window_keys_canonical. Qed.

Lemma popBack_frame newStart s :
  let r := rvi s in let r' := rvi (popBack newStart s) in
  iter r' = iter r ∧ selRange r' = selRange r ∧ step r' = step r
  ∧ end_ r' = end_ r ∧ current r' = current r ∧ metrics r' = metrics r.
Proof. apply popBack_over_frame. Qed.

Lemma popBack_points_elem newStart pts p :
  p ∈ popBack_points newStart pts → p ∈ pts.
Proof.
  intros H. rewrite (expired_app newStart pts). apply elem_of_app. by right.
Qed.

Lemma points_of_lookup w fp series :
  w !! fp = Some series → promql.Points series = points_of w fp.
Proof. unfold points_of. by intros ->. Qed.

Section NextProps.

Variable ParseMetric : string → option labels.Labels.

Lemma Next_false fuel s :
  end_ (rvi s) < add64 (current (rvi s)) (step (rvi s)) →
  Next ParseMetric fuel s =
  Some (false, set_rvi s (set_current (rvi s) (add64 (current (rvi s)) (step (rvi s))))).
Proof.
  intros H. unfold Next. simpl.
  destruct (add64 (current (rvi s)) (step (rvi s)) >? end_ (rvi s)) eqn:E; [done|lia].
Qed.

Lemma Next_false_inv fuel s s' :
  Next ParseMetric fuel s = Some (false, s') →
  end_ (rvi s) < add64 (current (rvi s)) (step (rvi s))
  ∧ s' = set_rvi s (set_current (rvi s) (add64 (current (rvi s)) (step (rvi s)))).
Proof.
  unfold Next. simpl.
  destruct (add64 (current (rvi s)) (step (rvi s)) >? end_ (rvi s)) eqn:E.
  - intros [= <-]. split; [lia|done].
  - by destruct (load _ _ _ _ _).
Qed.

Lemma Next_true_inv fuel s s' :
  Next ParseMetric fuel s = Some (true, s') →
  let c := add64 (current (rvi s)) (step (rvi s)) in
  let rangeStart := sub64 c (selRange (rvi s)) in
  c ≤ end_ (rvi s)
  ∧ load ParseMetric fuel rangeStart c
      (popBack rangeStart (set_rvi s (set_current (rvi s) c))) = Some s'.
Proof.
  unfold Next. simpl.
  destruct (add64 (current (rvi s)) (step (rvi s)) >? end_ (rvi s)) eqn:E; [done|].
  destruct (load _ _ _ _ _) as [s1|]; [|done].
  intros [= <-]. split; [lia|done].
Qed.

Lemma Next_config fuel s b s' :
  Next ParseMetric fuel s = Some (b, s') →
  selRange (rvi s') = selRange (rvi s) ∧ step (rvi s') = step (rvi s)
  ∧ end_ (rvi s') = end_ (rvi s)
  ∧ current (rvi s') = add64 (current (rvi s)) (step (rvi s)).
Proof.
  destruct b.
  - intros (_ & Hload)%Next_true_inv.
    apply load_spec in Hload as (_ & _ & _ & _ & _ & _ & Hcfg & _).
    destruct Hcfg as (-> & -> & -> & ->).
    destruct (popBack_frame
      (sub64 (add64 (current (rvi s)) (step (rvi s))) (selRange (rvi s)))
      (set_rvi s (set_current (rvi s) (add64 (current (rvi s)) (step (rvi s))))))
      as (_ & -> & -> & -> & -> & _). done.
  - by intros (_ & ->)%Next_false_inv.
Qed.

End NextProps.

(** ** The pool and the ranging order do not show in the iterator *)

(** [sync.Pool] may hand out any series it holds, or none, and Go ranges
    over the window in any order.  Neither choice reaches the iterator: a
    series taken from the pool has its points reset and its metric
    overwritten before it is used, and [popBack] treats every entry on its
    own.  The statements below are therefore made on the free-list model
    and the canonical ranging order without loss. *)

Lemma rvi_eq r r' :
  iter r' = iter r → selRange r' = selRange r → step r' = step r → end_ r' = end_ r →
  current r' = current r → window r' = window r → metrics r' = metrics r → r' = r.
Proof. destruct r, r'. simpl. by intros -> -> -> -> -> -> ->. Qed.

Lemma popBack_over_any_order keys newStart s :
  window_keys s keys → rvi (popBack_over keys newStart s) = rvi (popBack newStart s).
Proof.
  intros Hk.
  destruct (popBack_over_frame keys newStart s) as (H1 & H2 & H3 & H4 & H5 & H6).
  destruct (popBack_frame newStart s) as (H1' & H2' & H3' & H4' & H5' & H6').
  apply rvi_eq; try congruence.
  apply map_eq. intros fp. unfold popBack.
  by rewrite !popBack_over_lookup by (done || apply window_keys_canonical).
Qed.

Lemma popBack_fp_any_pool newStart s1 s2 k :
  rvi s1 = rvi s2 → rvi (popBack_fp newStart s1 k) = rvi (popBack_fp newStart s2 k).
Proof.
  intros H. unfold popBack_fp. rewrite H.
  destruct (window (rvi s2) !! k); [|done]. by destruct (length _ =? 0)%nat.
Qed.

Lemma popBack_over_any_pool keys newStart s1 s2 :
  rvi s1 = rvi s2 →
  rvi (popBack_over keys newStart s1) = rvi (popBack_over keys newStart s2).
Proof.
  revert s1 s2. induction keys as [|k keys IH]; intros s1 s2 H; [done|].
  unfold popBack_over in *. simpl. by apply IH, popBack_fp_any_pool.
Qed.

Lemma popBack_any_pool newStart s1 s2 :
  rvi s1 = rvi s2 → rvi (popBack newStart s1) = rvi (popBack newStart s2).
Proof.
  intros H. unfold popBack. rewrite H. by apply popBack_over_any_pool.
Qed.

Section Pool.

Variable ParseMetric : string → option labels.Labels.

Lemma load_iter_any_pool start end_ s1 s2 :
  rvi s1 = rvi s2 →
  match load_iter ParseMetric start end_ s1, load_iter ParseMetric start end_ s2 with
  | Return t1, Return t2 | Continue t1, Continue t2 => rvi t1 = rvi t2
  | _, _ => False
  end.
Proof.
  intros H. unfold load_iter, load_series. rewrite H.
  destruct (SeriesIterator.Peek (iter (rvi s2))) as [c|]; [|done].
  destruct (TimestampNano c >? end_); [done|].
  destruct (TimestampNano c <=? start); [done|].
  destruct (window (rvi s2) !! Labels c) as [series|]; [by simpl; rewrite H|].
  destruct (metrics (rvi s2) !! Labels c) as [metric|].
  { by destruct (seriesPool s1), (seriesPool s2). }
  destruct (ParseMetric (Labels c)) as [metric|]; [|done].
  by destruct (seriesPool s1), (seriesPool s2).
Qed.

Lemma load_any_pool fuel start end_ s1 s2 :
  rvi s1 = rvi s2 →
  rvi <$> load ParseMetric fuel start end_ s1 = rvi <$> load ParseMetric fuel start end_ s2.
Proof.
  revert s1 s2. induction fuel as [|fuel IH]; intros s1 s2 H; [done|]. simpl.
  pose proof (load_iter_any_pool start end_ s1 s2 H) as Hiter.
  destruct (load_iter ParseMetric start end_ s1), (load_iter ParseMetric start end_ s2);
    try done.
  - simpl. by rewrite Hiter.
  - by apply IH.
Qed.

Lemma Next_any_pool fuel s1 s2 :
  rvi s1 = rvi s2 →
  (λ bt, (bt.1, rvi bt.2)) <$> Next ParseMetric fuel s1
  = (λ bt, (bt.1, rvi bt.2)) <$> Next ParseMetric fuel s2.
Proof.
  intros H. unfold Next. rewrite H. simpl.
  destruct (_ >? _); [done|].
  set (c := add64 (current (rvi s2)) (step (rvi s2))).
  set (rs := sub64 c (selRange (rvi s2))).
  pose proof (load_any_pool fuel rs c
                (popBack rs (set_rvi s1 (set_current (rvi s2) c)))
                (popBack rs (set_rvi s2 (set_current (rvi s2) c)))
                (popBack_any_pool rs (set_rvi s1 (set_current (rvi s2) c))
                   (set_rvi s2 (set_current (rvi s2) c)) eq_refl)) as Hload.
  destruct (load ParseMetric fuel rs c (popBack rs (set_rvi s1 _))),
           (load ParseMetric fuel rs c (popBack rs (set_rvi s2 _)));
    simpl in *; congruence.
Qed.

End Pool.

Section Progress.

Variable ParseMetric : string → option labels.Labels.

Lemma run_reach s s' : run ParseMetric s s' → reach ParseMetric s s'.
Proof.
  induction 1 as [s|s s1 fuel b s2 _ IH _ HN]; [apply reach_refl|].
  by eapply reach_Next.
Qed.

Lemma reach_config s s' :
  reach ParseMetric s s' →
  selRange (rvi s') = selRange (rvi s) ∧ step (rvi s') = step (rvi s)
  ∧ end_ (rvi s') = end_ (rvi s).
Proof.
  induction 1 as [s|s s1 fuel b s2 _ IH HN]; [done|].
  apply Next_config in HN as (-> & -> & -> & _). done.
Qed.

Lemma reach_current_range s s' :
  reach ParseMetric s s' →
  min_int64 ≤ current (rvi s) ≤ max_int64 →
  min_int64 ≤ current (rvi s') ≤ max_int64.
Proof.
  induction 1 as [s|s s1 fuel b s2 _ IH HN]; [done|]. intros _.
  apply Next_config in HN as (_ & _ & _ & ->). apply wrap64_range.
Qed.

(** C6 (amended).  A configured step of 0 is stored as 1, and every other
    step, negative ones included, is stored as given.  For an iterator
    constructed with step 0 the step is 1 in every state that calls of
    [Next] reach, and a call of [Next] made while [current < MaxInt64]
    leaves [current] one above its previous value. *)
Theorem step_zero_coerced (it : SeriesIterator.t) (sel start e : Z)
    (pool : list promql.Series) (s s' : state) (fuel : nat) (b : bool) :
  reach ParseMetric (mkState (newRangeVectorIterator it sel 0 start e) pool) s →
  Next ParseMetric fuel s = Some (b, s') →
  current (rvi s) < max_int64 →
  step (newRangeVectorIterator it sel 0 start e) = 1
  ∧ (∀ st, st ≠ 0 → step (newRangeVectorIterator it sel st start e) = st)
  ∧ step (rvi s) = 1
  ∧ current (rvi s') = current (rvi s) + 1
  ∧ current (rvi s) < current (rvi s').
Proof.
  intros Hrun HN Hlt.
  split; [done|]. split.
  { intros st Hst. unfold newRangeVectorIterator. simpl.
    destruct (st =? 0) eqn:E; [lia|done]. }
  pose proof (reach_config _ _ Hrun) as (_ & Hstep & _). simpl in Hstep.
  pose proof (reach_current_range _ _ Hrun (wrap64_range _)) as Hrange.
  apply Next_config in HN as (_ & _ & _ & ->). rewrite Hstep.
  unfold add64. rewrite wrap64_id by lia. lia.
Qed.

Lemma Next_n_false fuel n s :
  1 ≤ step (rvi s) →
  end_ (rvi s) < add64 (current (rvi s)) (step (rvi s)) →
  add64 (current (rvi s)) (step (rvi s)) + Z.of_nat n * step (rvi s) ≤ max_int64 →
  Next_n ParseMetric fuel (S n) s =
  Some (repeat false (S n),
        set_rvi s (set_current (rvi s)
          (add64 (current (rvi s)) (step (rvi s)) + Z.of_nat n * step (rvi s)))).
Proof.
  revert s. induction n as [|n IH]; intros s Hstep Hend Hmax.
  - simpl. rewrite Next_false by done. simpl. do 4 f_equal. lia.
  - change (Next_n ParseMetric fuel (S (S n)) s) with
      (match Next ParseMetric fuel s with
       | None => None
       | Some (b, s') =>
           match Next_n ParseMetric fuel (S n) s' with
           | None => None
           | Some (bs, s'') => Some (b :: bs, s'')
           end
       end).
    rewrite Next_false by done.
    set (c := add64 (current (rvi s)) (step (rvi s))) in *.
    pose proof (wrap64_range (current (rvi s) + step (rvi s))) as Hc. fold (add64 (current (rvi s)) (step (rvi s))) in Hc. fold c in Hc.
    assert (add64 c (step (rvi s)) = c + step (rvi s)) as Hadd.
    { unfold add64. apply wrap64_id. nia. }
    rewrite IH; simpl; rewrite ?Hadd; [|done|lia|nia].
    unfold set_rvi, set_current. simpl. do 4 f_equal. lia.
Qed.

(** C8 (amended).  When a call of [Next] with step at least 1 computes a
    position beyond [end], it returns false and the state it leaves differs
    from the one before in [current] only: window store, labels cache,
    sample source and pool are the same.  The calls that follow also return
    false for as long as the position, which keeps growing by [step], stays
    within int64. *)
Theorem Next_exhausted_stays (fuel n : nat) (s : state) :
  1 ≤ step (rvi s) →
  end_ (rvi s) < add64 (current (rvi s)) (step (rvi s)) →
  add64 (current (rvi s)) (step (rvi s)) + Z.of_nat n * step (rvi s) ≤ max_int64 →
  Next ParseMetric fuel s =
    Some (false, set_rvi s (set_current (rvi s) (add64 (current (rvi s)) (step (rvi s)))))
  ∧ ∃ s', Next_n ParseMetric fuel (S n) s = Some (repeat false (S n), s')
      ∧ window (rvi s') = window (rvi s)
      ∧ metrics (rvi s') = metrics (rvi s)
      ∧ iter (rvi s') = iter (rvi s)
      ∧ seriesPool s' = seriesPool s
      ∧ end_ (rvi s) < current (rvi s').
Proof.
  intros Hstep Hend Hmax. split; [by apply Next_false|].
  eexists. split; [by apply Next_n_false|]. simpl. repeat split; try done. nia.
Qed.

End Progress.

(** ** The window invariant *)

Lemma nondecreasing_strongly src :
  nondecreasing src → StronglySorted (λ a b, TimestampNano a ≤ TimestampNano b) src.
Proof. apply Sorted_StronglySorted. intros a b c. lia. Qed.

Lemma ascending_snoc pts p :
  ascending pts → (∀ q, q ∈ pts → promql.T q ≤ promql.T p) → ascending (pts ++ [p]).
Proof.
  intros Hasc Hle. apply StronglySorted_Sorted, StronglySorted_app_2.
  - intros q x Hq ->%list_elem_of_singleton. by apply Hle.
  - by apply ascending_strongly.
  - repeat constructor.
Qed.

Lemma ordered_popBack newStart s : ordered s → ordered (popBack newStart s).
Proof.
  intros (Hsrc & Hasc & Hle).
  destruct (popBack_frame newStart s) as (Hit & _). unfold ordered.
  rewrite Hit. split; [done|]. split.
  - intros fp. rewrite points_of_popBack. by apply popBack_points_ascending.
  - intros fp p c. rewrite points_of_popBack. intros Hp%popBack_points_elem.
    by apply (Hle fp).
Qed.

Lemma points_within_popBack newStart hi s :
  ordered s →
  (∀ fp p, p ∈ points_of (window (rvi s)) fp → promql.T p ≤ hi) →
  points_within newStart hi (popBack newStart s).
Proof.
  intros (_ & Hasc & _) Hhi fp p. rewrite points_of_popBack. intros Hp. split.
  - pose proof (popBack_points_gt newStart _ (Hasc fp)) as Hgt.
    rewrite Forall_forall in Hgt. by apply Hgt.
  - apply (Hhi fp). by eapply popBack_points_elem.
Qed.

Section Invariant.

Variable ParseMetric : string → option labels.Labels.

Lemma load_iter_ordered lo hi s s' :
  load_iter ParseMetric lo hi s = Continue s' →
  ordered s → points_within lo hi s →
  ordered s' ∧ points_within lo hi s'.
Proof.
  intros (c & rest & Hp & Hchi & [(-> & _)|(Hadv & _ & Hpts & _)])%load_iter_Continue
    (Hsrc & Hasc & Hle) Hin; [done|].
  destruct Hadv as (_ & Hit & _).
  rewrite Hp in Hsrc, Hle.
  pose proof (nondecreasing_strongly _ Hsrc) as [Hrest _]%StronglySorted_cons.
  rewrite Forall_forall in Hrest.
  assert (Hnew : ∀ fp p, p ∈ points_of (window (rvi s')) fp →
            p ∈ points_of (window (rvi s)) fp
            ∨ (p = sample_point c ∧ lo < TimestampNano c)).
  { intros fp p. rewrite Hpts, ingested_one, elem_of_app.
    intros [?|Hp']; [by left|right]. case_decide as Hd; [|by apply elem_of_nil in Hp'].
    apply list_elem_of_singleton in Hp'. by destruct Hd. }
  split; [split; [|split]|].
  - rewrite Hit. simpl. unfold nondecreasing in *. by inversion Hsrc.
  - intros fp. rewrite Hpts, ingested_one. case_decide; [|by rewrite app_nil_r].
    apply ascending_snoc; [done|]. intros q Hq. apply (Hle fp q c Hq). by left.
  - intros fp p c'. rewrite Hit. simpl. intros Hp' Hc'.
    destruct (Hnew fp p Hp') as [Hold|[-> _]].
    + apply (Hle fp p c' Hold). by right.
    + simpl. by apply Hrest.
  - intros fp p Hp'. destruct (Hnew fp p Hp') as [Hold|[-> Hlo]]; [by apply (Hin fp)|].
    simpl. lia.
Qed.

Lemma load_ordered fuel lo hi s s' :
  load ParseMetric fuel lo hi s = Some s' →
  ordered s → points_within lo hi s →
  ordered s' ∧ points_within lo hi s'.
Proof.
  revert s. induction fuel as [|fuel IH]; intros s; [done|]. simpl.
  destruct (load_iter ParseMetric lo hi s) as [s1|s1] eqn:E.
  - by intros [= <-]; apply load_iter_Return in E as [-> _].
  - intros Hload Hord Hin.
    destruct (load_iter_ordered _ _ _ _ E Hord Hin). by apply (IH s1).
Qed.

Lemma Next_inv fuel s b s' :
  Next ParseMetric fuel s = Some (b, s') →
  engine_inv s →
  current (rvi s) + step (rvi s) ≤ max_int64 →
  engine_inv s'
  ∧ (b = true →
       points_within (sub64 (current (rvi s')) (selRange (rvi s'))) (current (rvi s')) s'
       ∧ points_within (sub64 (current (rvi s')) (selRange (rvi s'))) (current (rvi s'))
           (popBack (sub64 (current (rvi s')) (selRange (rvi s')))
              (set_rvi s (set_current (rvi s) (current (rvi s')))))).
Proof.
  intros HN (Hord & Hcur & Hrange & Hstep) Hmax.
  pose proof (Next_config _ _ _ _ _ HN) as (Hsel & Hst & He & Hc).
  assert (Hadd : add64 (current (rvi s)) (step (rvi s)) = current (rvi s) + step (rvi s)).
  { unfold add64. apply wrap64_id. lia. }
  rewrite Hadd in Hc.
  destruct b.
  - apply Next_true_inv in HN as (_ & Hload). rewrite Hadd in Hload.
    rewrite Hc, Hsel.
    set (c := current (rvi s) + step (rvi s)) in *.
    set (s1 := set_rvi s (set_current (rvi s) c)) in *.
    assert (Hord1 : ordered s1) by done.
    assert (Hin1 : points_within (sub64 c (selRange (rvi s))) c
                     (popBack (sub64 c (selRange (rvi s))) s1)).
    { apply points_within_popBack; [done|]. intros fp p Hp.
      specialize (Hcur fp p Hp). unfold c. lia. }
    destruct (load_ordered _ _ _ _ _ Hload (ordered_popBack _ _ Hord1) Hin1)
      as [Hord' Hin'].
    split; [|done].
    split; [done|]. split; [|rewrite Hc, Hst; unfold c; lia].
    intros fp p Hp. rewrite Hc. by apply (Hin' fp).
  - apply Next_false_inv in HN as (_ & ->). split; [|done].
    split; [done|]. simpl. rewrite Hadd. split; [|lia].
    intros fp p Hp. specialize (Hcur fp p Hp). lia.
Qed.

Lemma run_inv s s' : run ParseMetric s s' → engine_inv s → engine_inv s'.
Proof.
  induction 1 as [s|s s1 fuel b s2 _ IH Hmax HN]; [done|]. intros Hinv.
  by destruct (Next_inv _ _ _ _ HN (IH Hinv) Hmax).
Qed.

Lemma engine_inv_new it sel st start e pool :
  1 ≤ st → nondecreasing (SeriesIterator.pending it) →
  engine_inv (mkState (newRangeVectorIterator it sel st start e) pool).
Proof.
  intros Hst Hsrc. unfold newRangeVectorIterator.
  destruct (st =? 0) eqn:E; [lia|].
  split; [split; [done|split]|split; [|split]]; simpl; try done.
  - intros fp. unfold points_of. rewrite lookup_empty. constructor.
  - intros fp p c. unfold points_of. rewrite lookup_empty. by intros ?%elem_of_nil.
  - intros fp p. unfold points_of. rewrite lookup_empty. by intros ?%elem_of_nil.
  - apply wrap64_range.
Qed.

(** C5 (amended).  For an iterator constructed with step at least 1 over
    a source in non-decreasing timestamp order, along every run in which no
    call overflows [current + step]: after a call of [Next] that returns
    true, every point of every series entry has its timestamp in
    [(rangeStart, rangeEnd]] for the bounds of that call, [rangeEnd] the
    new [current] and [rangeStart] the [current - selRange] the call
    computed.  Within the call eviction comes first: the state is the
    result of [load] on the result of [popBack], and the points left by
    [popBack] are already within the bounds. *)
Theorem window_within_bounds (it : SeriesIterator.t) (sel st start e : Z)
    (pool : list promql.Series) (s s' : state) (fuel : nat) :
  1 ≤ st →
  nondecreasing (SeriesIterator.pending it) →
  run ParseMetric (mkState (newRangeVectorIterator it sel st start e) pool) s →
  current (rvi s) + step (rvi s) ≤ max_int64 →
  Next ParseMetric fuel s = Some (true, s') →
  let rangeEnd := current (rvi s') in
  let rangeStart := sub64 (current (rvi s')) (selRange (rvi s')) in
  let evicted := popBack rangeStart (set_rvi s (set_current (rvi s) rangeEnd)) in
  (∀ fp series p, window (rvi s') !! fp = Some series → p ∈ promql.Points series →
                  rangeStart < promql.T p ≤ rangeEnd)
  ∧ load ParseMetric fuel rangeStart rangeEnd evicted = Some s'
  ∧ (∀ fp series p, window (rvi evicted) !! fp = Some series → p ∈ promql.Points series →
                    rangeStart < promql.T p ≤ rangeEnd).
Proof.
  intros Hst Hsrc Hrun Hmax HN.
  pose proof (run_inv _ _ Hrun (engine_inv_new it sel st start e pool Hst Hsrc)) as Hinv.
  destruct (Next_inv _ _ _ _ HN Hinv Hmax) as [_ Hin]. destruct (Hin eq_refl) as [Hin1 Hin2].
  pose proof (Next_config _ _ _ _ _ HN) as (Hsel & _ & _ & Hc).
  apply Next_true_inv in HN as (_ & Hload). rewrite <- Hc, <- Hsel in Hload.
  cbv zeta. split; [|split; [done|]].
  - intros fp series p Hfp Hp. apply (Hin1 fp). by rewrite <- (points_of_lookup _ _ _ Hfp).
  - intros fp series p Hfp Hp. apply (Hin2 fp). by rewrite <- (points_of_lookup _ _ _ Hfp).
Qed.

End Invariant.

(** ** Consumption of the source over a run *)

Lemma consumed_by_app cs1 cs2 it1 it2 it3 :
  consumed_by cs1 it1 it2 → consumed_by cs2 it2 it3 → consumed_by (cs1 ++ cs2) it1 it3.
Proof.
  intros (Hp1 & Hc1 & Hn1) (Hp2 & Hc2 & Hn2). unfold consumed_by.
  rewrite Hp1, Hp2, Hc2, Hc1, Hn2, Hn1, reverse_app, length_app.
  split; [by rewrite app_assoc|]. split; [by rewrite app_assoc|lia].
Qed.

Lemma consumed_by_source cs it it' :
  consumed_by cs it it' → source_of it' = source_of it.
Proof.
  intros (Hp & Hc & _). unfold source_of.
  by rewrite Hp, Hc, reverse_app, reverse_involutive, <- app_assoc.
Qed.

Lemma head_after_all hi it :
  nondecreasing (SeriesIterator.pending it) → head_after hi it →
  Forall (λ c, hi < TimestampNano c) (SeriesIterator.pending it).
Proof.
  unfold head_after. intros Hsrc%nondecreasing_strongly.
  destruct (SeriesIterator.pending it) as [|c rest]; [constructor|]. intros Hc.
  apply StronglySorted_cons in Hsrc as [Hrest _].
  constructor; [done|]. eapply Forall_impl; [exact Hrest|]. simpl. lia.
Qed.

Section Consumption.

Variable ParseMetric : string → option labels.Labels.

Lemma Next_true_terminates fuel s :
  Forall (λ c, is_Some (ParseMetric (Labels c))) (SeriesIterator.pending (iter (rvi s))) →
  (length (SeriesIterator.pending (iter (rvi s))) < fuel)%nat →
  add64 (current (rvi s)) (step (rvi s)) ≤ end_ (rvi s) →
  ∃ s', Next ParseMetric fuel s = Some (true, s').
Proof.
  intros Hall Hlen Hle. unfold Next. simpl.
  destruct (add64 (current (rvi s)) (step (rvi s)) >? end_ (rvi s)) eqn:E; [lia|].
  set (s1 := popBack _ _).
  assert (Hit : iter (rvi s1) = iter (rvi s)).
  { unfold s1. by destruct (popBack_frame
      (sub64 (add64 (current (rvi s)) (step (rvi s))) (selRange (rvi s)))
      (set_rvi s (set_current (rvi s) (add64 (current (rvi s)) (step (rvi s))))))
      as (-> & _). }
  destruct (load_terminates ParseMetric fuel
              (sub64 (add64 (current (rvi s)) (step (rvi s))) (selRange (rvi s)))
              (add64 (current (rvi s)) (step (rvi s))) s1) as [s' Hs'].
  - by rewrite Hit.
  - by rewrite Hit.
  - rewrite Hs'. by exists s'.
Qed.

Lemma Next_true_consumes fuel s s' :
  Next ParseMetric fuel s = Some (true, s') →
  ∃ cs, consumed_by cs (iter (rvi s)) (iter (rvi s'))
    ∧ Forall (λ c, TimestampNano c ≤ current (rvi s')) cs
    ∧ head_after (current (rvi s')) (iter (rvi s')).
Proof.
  intros HN. pose proof (Next_config _ _ _ _ _ HN) as (_ & _ & _ & ->).
  apply Next_true_inv in HN as (_ & Hload).
  apply load_spec in Hload as (cs & Hcons & Hall & Hhead & _).
  exists cs. split; [|done].
  destruct (popBack_frame
    (sub64 (add64 (current (rvi s)) (step (rvi s))) (selRange (rvi s)))
    (set_rvi s (set_current (rvi s) (add64 (current (rvi s)) (step (rvi s))))))
    as (Hit & _).
  by rewrite Hit in Hcons.
Qed.

(** The evaluator's loop terminates and consumes the samples up to the
    last position it reached. *)
Lemma drive_spec fuel calls s :
  engine_inv s →
  Forall (λ c, is_Some (ParseMetric (Labels c))) (SeriesIterator.pending (iter (rvi s))) →
  (length (SeriesIterator.pending (iter (rvi s))) < fuel)%nat →
  current (rvi s) + step (rvi s) ≤ max_int64 →
  end_ (rvi s) + step (rvi s) ≤ max_int64 →
  (Z.to_nat (end_ (rvi s) - current (rvi s)) < calls)%nat →
  ∃ k sf cs,
    drive ParseMetric fuel calls s = Some (k, sf)
    ∧ consumed_by cs (iter (rvi s)) (iter (rvi sf))
    ∧ end_ (rvi s) < current (rvi s) + (Z.of_nat k + 1) * step (rvi s)
    ∧ (k = O → cs = [])
    ∧ (k ≠ O →
         let last := current (rvi s) + Z.of_nat k * step (rvi s) in
         last ≤ end_ (rvi s)
         ∧ Forall (λ c, TimestampNano c ≤ last) cs
         ∧ Forall (λ c, last < TimestampNano c) (SeriesIterator.pending (iter (rvi sf)))).
Proof.
  revert s. induction calls as [|calls IH]; intros s Hinv Hall Hlen Hmax Hemax Hcalls; [lia|].
  pose proof Hinv as (_ & _ & Hrange & Hstep).
  assert (Hadd : add64 (current (rvi s)) (step (rvi s)) = current (rvi s) + step (rvi s)).
  { unfold add64. apply wrap64_id. lia. }
  simpl. destruct (decide (current (rvi s) + step (rvi s) ≤ end_ (rvi s))) as [Hle|Hgt].
  - destruct (Next_true_terminates fuel s Hall Hlen) as [s1 HN]; [lia|]. rewrite HN.
    pose proof (Next_config _ _ _ _ _ HN) as (Hsel & Hst & He & Hc). rewrite Hadd in Hc.
    destruct (Next_inv _ _ _ _ _ HN Hinv Hmax) as [Hinv1 _].
    destruct (Next_true_consumes _ _ _ HN) as (cs1 & Hcons1 & Hall1 & Hhead1).
    pose proof Hcons1 as (Hp1 & _ & _).
    destruct (IH s1) as (k & sf & cs2 & -> & Hcons2 & Hend & Hk0 & Hk); try done.
    + rewrite Hp1 in Hall. by apply Forall_app in Hall as [_ ?].
    + rewrite Hp1, length_app in Hlen. lia.
    + rewrite Hc, Hst. lia.
    + by rewrite He, Hst.
    + rewrite He, Hc. lia.
    + exists (S k), sf, (cs1 ++ cs2).
      rewrite Hc, Hst, He in *.
      split; [done|]. split; [by eapply consumed_by_app|]. split; [lia|].
      split; [done|]. intros _. cbv zeta.
      replace (current (rvi s) + Z.of_nat (S k) * step (rvi s))
        with (current (rvi s) + step (rvi s) + Z.of_nat k * step (rvi s)) by lia.
      destruct k as [|k].
      * rewrite (Hk0 eq_refl) in *. rewrite app_nil_r.
        destruct Hcons2 as (Hp2 & _). simpl in Hp2. rewrite <- Hp2.
        replace (current (rvi s) + step (rvi s) + Z.of_nat 0 * step (rvi s))
          with (current (rvi s) + step (rvi s)) by lia.
        split; [done|]. split; [done|].
        apply head_after_all; [|done]. by destruct Hinv1 as ((? & _) & _).
      * destruct (Hk ltac:(done)) as (Hlast & Hcs2 & Hpend).
        split; [done|]. split; [|done]. apply Forall_app. split; [|done].
        eapply Forall_impl; [exact Hall1|]. simpl. intros c. nia.
  - rewrite Next_false by lia.
    exists O, (set_rvi s (set_current (rvi s) (add64 (current (rvi s)) (step (rvi s))))), [].
    split; [done|]. split; [apply consumed_by_nil|]. split; [lia|]. done.
Qed.

(** C2 (amended).  Over a whole run of the evaluator's loop, on a finite
    source in non-decreasing timestamp order every fingerprint of which
    resolves, with step at least 1 and bounds away from the limits of
    int64: the loop ends; the samples consumed, in the order they were
    consumed, followed by the samples left, are the source, so no sample is
    consumed twice and none is passed over; [Next] was called on the source
    once per consumed sample; and the consumed samples are those with a
    timestamp up to the last window position reached, the others are never
    consumed. *)
Theorem source_consumed_once (src : list Sample) (sel st start e : Z)
    (pool : list promql.Series) :
  1 ≤ st → min_int64 ≤ start - st → start ≤ max_int64 → e + st ≤ max_int64 →
  nondecreasing src →
  Forall (λ c, is_Some (ParseMetric (Labels c))) src →
  ∃ k sf,
    drive ParseMetric (S (length src)) (S (Z.to_nat (e - start + st)))
      (mkState (newRangeVectorIterator (SeriesIterator.of_list src) sel st start e) pool)
    = Some (k, sf)
    ∧ source_of (iter (rvi sf)) = src
    ∧ SeriesIterator.nextCalls (iter (rvi sf))
      = length (SeriesIterator.consumed (iter (rvi sf)))
    ∧ e < start + Z.of_nat k * st
    ∧ (k = O → SeriesIterator.consumed (iter (rvi sf)) = [])
    ∧ (k ≠ O →
         let last := start + (Z.of_nat k - 1) * st in
         last ≤ e
         ∧ Forall (λ c, TimestampNano c ≤ last) (SeriesIterator.consumed (iter (rvi sf)))
         ∧ Forall (λ c, last < TimestampNano c) (SeriesIterator.pending (iter (rvi sf)))).
Proof.
  intros Hst Hmin Hmaxs Hmaxe Hsrc Hall.
  set (s0 := mkState (newRangeVectorIterator (SeriesIterator.of_list src) sel st start e) pool).
  assert (Hstep : step (rvi s0) = st).
  { simpl. destruct (st =? 0) eqn:E; [lia|done]. }
  assert (Hcur : current (rvi s0) = start - st).
  { simpl. destruct (st =? 0) eqn:E; [lia|]. unfold sub64. apply wrap64_id. lia. }
  destruct (drive_spec (S (length src)) (S (Z.to_nat (e - start + st))) s0)
    as (k & sf & cs & Hdrive & Hcons & Hend & Hk0 & Hk).
  - by apply engine_inv_new.
  - done.
  - simpl. lia.
  - rewrite Hcur, Hstep. lia.
  - by rewrite Hstep.
  - rewrite Hcur. simpl. lia.
  - change (end_ (rvi s0)) with e in *.
    rewrite Hcur, Hstep in *. exists k, sf. split; [done|].
    pose proof (consumed_by_source _ _ _ Hcons) as Hsource.
    destruct Hcons as (_ & Hc & Hn). simpl in Hc, Hn, Hsource. rewrite app_nil_r in Hc.
    split; [done|]. split; [by rewrite Hn, Hc, length_reverse|]. split; [lia|]. split.
    + intros ->%Hk0. by rewrite Hc.
    + intros Hne. destruct (Hk Hne) as (Hlast & Hcs & Hpend). cbv zeta.
      replace (start + (Z.of_nat k - 1) * st) with (start - st + Z.of_nat k * st) by lia.
      split; [done|]. split; [|done]. rewrite Hc. by apply Forall_reverse.
Qed.

End Consumption.

(** ** The end-to-end scenario *)

(** C9.  Selector duration 5, step 5, start 0, end 10, over a source that
    delivers (T=0, V=1), (T=3, V=2), (T=11, V=3) for the fingerprint "A",
    with any label resolver that resolves "A" and at least two loop
    iterations of fuel per call.  Construction sets [current] to -5.  The
    first [Next] returns true and leaves the window {A: [(0, 1)]}, [At]
    with [sum] gives timestamp 0 and the vector [{A, 1}]; the second returns
    true, the point at T=0 is evicted and the sample at T=3 ingested, [At]
    gives timestamp 0 and [{A, 2}]; the third returns true with an empty
    window, [At] gives an empty vector; the fourth returns false, and the
    sample at T=11 is still pending: [Next] was called twice on the source. *)
Theorem end_to_end_scenario (ParseMetric : string → option labels.Labels)
    (m : labels.Labels) (fuel : nat) :
  ParseMetric "A" = Some m →
  (2 ≤ fuel)%nat →
  current (rvi scenario_init) = -5
  ∧ ∃ s1 s2 s3 s4,
      Next ParseMetric fuel scenario_init = Some (true, s1)
      ∧ window (rvi s1) = {[ "A" := promql.mkSeries m [promql.mkPoint 0 1%float] ]}
      ∧ (At sum_aggregator s1).1
        = (0, [promql.mkSample (promql.mkPoint 0 1%float) m])
      ∧ SeriesIterator.pending (iter (rvi s1))
        = [mkSample "A" 3 2%float; mkSample "A" 11 3%float]
      ∧ Next ParseMetric fuel s1 = Some (true, s2)
      ∧ window (rvi s2) = {[ "A" := promql.mkSeries m [promql.mkPoint 3 2%float] ]}
      ∧ (At sum_aggregator s2).1
        = (0, [promql.mkSample (promql.mkPoint 0 2%float) m])
      ∧ Next ParseMetric fuel s2 = Some (true, s3)
      ∧ window (rvi s3) = ∅
      ∧ (At sum_aggregator s3).1 = (0, [])
      ∧ Next ParseMetric fuel s3 = Some (false, s4)
      ∧ SeriesIterator.pending (iter (rvi s4)) = [mkSample "A" 11 3%float]
      ∧ SeriesIterator.consumed (iter (rvi s4))
        = [mkSample "A" 3 2%float; mkSample "A" 0 1%float]
      ∧ SeriesIterator.nextCalls (iter (rvi s4)) = 2%nat.
Proof.
  intros HA Hfuel. destruct fuel as [|[|fuel]]; [lia|lia|]. clear Hfuel.
  split; [done|].
  pose (a0 := mkSample "A" 0 1%float).
  pose (a3 := mkSample "A" 3 2%float).
  pose (a11 := mkSample "A" 11 3%float).
  pose (cache := ({[ "A" := m ]} : gmap string labels.Labels)).
  exists (mkState (mkRVI (SeriesIterator.mk [a3; a11] [a0] 1) 5 5 10 0
            {[ "A" := promql.mkSeries m [promql.mkPoint 0 1%float] ]} cache) []).
  exists (mkState (mkRVI (SeriesIterator.mk [a11] [a3; a0] 2) 5 5 10 5
            {[ "A" := promql.mkSeries m [promql.mkPoint 3 2%float] ]} cache)
            []).
  exists (mkState (mkRVI (SeriesIterator.mk [a11] [a3; a0] 2) 5 5 10 10 ∅ cache)
            [promql.mkSeries m []]).
  exists (mkState (mkRVI (SeriesIterator.mk [a11] [a3; a0] 2) 5 5 10 15 ∅ cache)
            [promql.mkSeries m []]).
  subst a0 a3 a11 cache.
  repeat split; try (vm_compute; rewrite ?HA; reflexivity).
Qed.

(** * Concrete runs *)

Lemma load_unresolved_sample_loops_witness :
  load_iter parseOnlyA 0 5 unresolved_head = Continue unresolved_head
  ∧ ∀ fuel, load parseOnlyA fuel 0 5 unresolved_head = None.
Proof.
  apply (load_unresolved_sample_loops parseOnlyA 0 5 unresolved_head
           (mkSample "{" 1 1%float) [mkSample "A" 2 2%float]).
  - reflexivity.
  - simpl. lia.
  - reflexivity.
  - reflexivity.
  - reflexivity.
Defined.

(** C2 (as stated) fails: in the end-to-end scenario the run ends after
    three successful calls with two calls of [Next] on a source of three
    samples; the sample at T=11 is never consumed. *)
Lemma source_tail_never_consumed :
  ∃ sf, drive parseOnlyA 4 4 scenario_init = Some (3%nat, sf)
    ∧ SeriesIterator.nextCalls (iter (rvi sf)) = 2%nat
    ∧ SeriesIterator.pending (iter (rvi sf)) = [mkSample "A" 11 3%float]
    ∧ length scenario_source = 3%nat
    ∧ SeriesIterator.nextCalls (iter (rvi sf)) ≠ length scenario_source.
Proof.
  eexists. split; [vm_compute; reflexivity|]. simpl. repeat split; done.
Defined.

Lemma source_consumed_once_witness :
  ∃ k sf,
    drive parseOnlyA 4 16 scenario_init = Some (k, sf)
    ∧ source_of (iter (rvi sf)) = scenario_source
    ∧ SeriesIterator.nextCalls (iter (rvi sf))
      = length (SeriesIterator.consumed (iter (rvi sf)))
    ∧ 10 < 0 + Z.of_nat k * 5.
Proof.
  destruct (source_consumed_once parseOnlyA scenario_source 5 5 0 10 [])
    as (k & sf & Hdrive & Hsrc & Hcalls & Hend & _).
  - lia.
  - unfold min_int64. lia.
  - unfold max_int64. lia.
  - unfold max_int64. lia.
  - repeat constructor; simpl; lia.
  - repeat constructor; by eexists.
  - exists k, sf. repeat split; assumption.
Defined.

Lemma popBack_evicts_witness :
  let s' := popBack 0 two_entries in
  window (rvi s') !! "A" = Some (promql.mkSeries labelsA [promql.mkPoint 3 2%float])
  ∧ window (rvi s') !! "B" = None
  ∧ promql.mkSeries [] [] ∈ seriesPool s'
  ∧ ∀ fp series', window (rvi s') !! fp = Some series' → promql.Points series' ≠ [].
Proof.
  assert (Hasc : ∀ fp series, window (rvi two_entries) !! fp = Some series →
                              ascending (promql.Points series)).
  { intros fp series H. unfold two_entries in H. cbn [rvi window] in H.
    apply lookup_insert_Some in H as [[_ <-]|[_ [_ <-]%lookup_singleton_Some]];
      repeat constructor; simpl; lia. }
  destruct (popBack_evicts (map_to_list (window (rvi two_entries))).*1 0 two_entries
              (window_keys_canonical two_entries) Hasc)
    as (_ & _ & Hnonempty & _).
  cbv zeta. split; [vm_compute; reflexivity|]. split; [vm_compute; reflexivity|].
  split; [|exact Hnonempty].
  vm_compute. left.
Defined.


(** C5 (as stated) fails when [current + step] overflows: with start and
    end at the largest int64 and step 1, the first call of [Next] ingests
    the sample at that timestamp, the second call wraps [current] to the
    smallest int64 and still returns true, and the point, which the
    eviction bound does not reach, is then later than [rangeEnd]. *)
Lemma window_bounds_fail_on_overflow :
  ∃ s2, Next_n parseOnlyA 2 2 overflow_init = Some ([true; true], s2)
    ∧ window (rvi s2) !! "A"
      = Some (promql.mkSeries labelsA [promql.mkPoint max_int64 1%float])
    ∧ current (rvi s2) = min_int64
    ∧ ¬ (∀ fp series p, window (rvi s2) !! fp = Some series → p ∈ promql.Points series →
           sub64 (current (rvi s2)) (selRange (rvi s2)) < promql.T p ≤ current (rvi s2)).
Proof.
  eexists. split; [vm_compute; reflexivity|].
  split; [vm_compute; reflexivity|]. split; [vm_compute; reflexivity|].
  intros H.
  specialize (H "A" (promql.mkSeries labelsA [promql.mkPoint max_int64 1%float])
                (promql.mkPoint max_int64 1%float)).
  destruct H as [_ H]; [vm_compute; reflexivity|by left|].
  vm_compute in H. by apply H.
Qed.

Lemma window_within_bounds_witness :
  (∀ fp series p, window (rvi scenario_first) !! fp = Some series →
                  p ∈ promql.Points series → -5 < promql.T p ≤ 0)
  ∧ load parseOnlyA 2 (-5) 0
      (popBack (-5) (set_rvi scenario_init (set_current (rvi scenario_init) 0)))
    = Some scenario_first.
Proof.
  destruct (window_within_bounds parseOnlyA (SeriesIterator.of_list scenario_source)
              5 5 0 10 [] scenario_init scenario_first 2)
    as (H1 & H2 & _).
  - lia.
  - repeat constructor; simpl; lia.
  - apply run_refl.
  - vm_compute. discriminate.
  - vm_compute. reflexivity.
  - split; [exact H1|exact H2].
Defined.

(** C6 (as stated) fails for a negative step: configured with step -1 the
    iterator stores -1, and a call of [Next] moves [current] down. *)
Lemma negative_step_kept :
  step (rvi backward_init) = -1
  ∧ current (rvi backward_init) = 1
  ∧ ∃ s', Next parseOnlyA 1 backward_init = Some (true, s')
      ∧ current (rvi s') = 0.
Proof.
  split; [reflexivity|]. split; [reflexivity|].
  eexists. split; vm_compute; reflexivity.
Qed.

Lemma step_zero_coerced_witness :
  let r := newRangeVectorIterator (SeriesIterator.of_list scenario_source) 5 0 0 10 in
  step r = 1
  ∧ ∃ s', Next parseOnlyA 2 (mkState r []) = Some (true, s')
      ∧ current (rvi s') = current r + 1.
Proof.
  cbv zeta.
  set (r := newRangeVectorIterator (SeriesIterator.of_list scenario_source) 5 0 0 10).
  assert (HN : ∃ s', Next parseOnlyA 2 (mkState r []) = Some (true, s')).
  { eexists. vm_compute. reflexivity. }
  destruct HN as [s' HN].
  destruct (step_zero_coerced parseOnlyA (SeriesIterator.of_list scenario_source)
              5 0 10 [] (mkState r []) s' 2 true) as (H1 & _ & _ & H2 & _).
  - apply reach_refl.
  - exact HN.
  - vm_compute. reflexivity.
  - split; [exact H1|]. exists s'. split; [exact HN|exact H2].
Defined.

Lemma At_one_sample_per_entry_witness :
  (At sum_aggregator scenario_first).1
  = (0, [promql.mkSample (promql.mkPoint 0 1%float) labelsA])
  ∧ length (At sum_aggregator scenario_first).1.2 = size (window (rvi scenario_first)).
Proof.
  destruct (At_one_sample_per_entry sum_aggregator scenario_first
              (map_to_list (window (rvi scenario_first))).*2
              (window_order_canonical scenario_first))
    as (_ & Hlen & _).
  split; [vm_compute; reflexivity|exact Hlen].
Defined.

(** C8 (as stated) fails when [current + step] overflows: with step 1 and
    end one short of the largest int64, the second call of [Next] returns
    false and the third, whose position wraps to the smallest int64,
    returns true. *)
Lemma exhausted_then_true_on_overflow :
  ∃ sf, Next_n parseOnlyA 1 3 late_init = Some ([true; false; true], sf)
    ∧ current (rvi sf) = min_int64.
Proof.
  eexists. split; vm_compute; reflexivity.
Qed.

Lemma Next_exhausted_stays_witness :
  Next parseOnlyA 2 scenario_third
  = Some (false, set_rvi scenario_third (set_current (rvi scenario_third) 15))
  ∧ ∃ s', Next_n parseOnlyA 2 4 scenario_third = Some ([false; false; false; false], s')
      ∧ window (rvi s') = window (rvi scenario_third)
      ∧ metrics (rvi s') = metrics (rvi scenario_third)
      ∧ iter (rvi s') = iter (rvi scenario_third)
      ∧ seriesPool s' = seriesPool scenario_third
      ∧ 10 < current (rvi s').
Proof.
  apply (Next_exhausted_stays parseOnlyA 2 3 scenario_third).
  - simpl. lia.
  - vm_compute. reflexivity.
  - vm_compute. discriminate.
Defined.

Lemma end_to_end_scenario_witness :
  current (rvi scenario_init) = -5
  ∧ Next parseOnlyA 2 scenario_init = Some (true, scenario_first)
  ∧ (At sum_aggregator scenario_first).1
    = (0, [promql.mkSample (promql.mkPoint 0 1%float) labelsA])
  ∧ ∃ s4, Next_n parseOnlyA 2 4 scenario_init = Some ([true; true; true; false], s4)
      ∧ SeriesIterator.pending (iter (rvi s4)) = [mkSample "A" 11 3%float].
Proof.
  destruct (end_to_end_scenario parseOnlyA labelsA 2 eq_refl (le_n 2))
    as (H0 & s1 & s2 & s3 & s4 & H1 & _ & _ & _ & H2 & _ & _ & H3 & _ & _ & H4 & Hp & _).
  split; [exact H0|]. split; [vm_compute; reflexivity|].
  split; [vm_compute; reflexivity|].
  exists s4. split; [|exact Hp].
  simpl. rewrite H1, H2, H3, H4. reflexivity.
Defined.

Lemma At_observation_only_witness :
  (At sum_aggregator scenario_first).2 = scenario_first
  ∧ (At sum_aggregator (At sum_aggregator scenario_first).2).1
    = (At sum_aggregator scenario_first).1.
Proof.
  destruct (At_observation_only sum_aggregator scenario_first
              (map_to_list (window (rvi scenario_first))).*2
              (map_to_list (window (rvi scenario_first))).*2
              (window_order_canonical scenario_first)
              (window_order_canonical scenario_first))
    as (H1 & _ & _ & H2 & _ & H3).
  split; [exact H1|].
  unfold At in *. rewrite H1.
  rewrite H1 in H2, H3. specialize (H3 eq_refl).
  destruct (At_over _ sum_aggregator scenario_first) as [[ts vec] s]. reflexivity.
Defined.

(** * Further properties *)

(** ** Invariants of every reachable state *)

Lemma popBack_nonempty newStart s : nonempty_entries (popBack newStart s).
Proof.
  intros fp series'. unfold popBack.
  rewrite popBack_over_lookup by apply window_keys_canonical.
  destruct (window (rvi s) !! fp) as [series|]; [|done]. simpl. unfold popBack_entry.
  destruct (popBack_points newStart (promql.Points series)) eqn:E; [done|].
  simpl. by intros [= <-].
Qed.

Lemma popBack_lookup_Some newStart s fp series' :
  window (rvi (popBack newStart s)) !! fp = Some series' →
  ∃ series, window (rvi s) !! fp = Some series
    ∧ promql.Metric series' = promql.Metric series.
Proof.
  unfold popBack. rewrite popBack_over_lookup by apply window_keys_canonical.
  destruct (window (rvi s) !! fp) as [series|]; [|done]. simpl. unfold popBack_entry.
  destruct (length _ =? 0)%nat; [done|]. intros [= <-]. by exists series.
Qed.

Section Reachable.

Variable ParseMetric : string → option labels.Labels.

Lemma load_iter_nonempty start end_ s s' :
  load_iter ParseMetric start end_ s = Continue s' →
  nonempty_entries s → nonempty_entries s'.
Proof.
  intros (c & rest & _ & _ & [(-> & _)|(_ & _ & Hpts & Hdom)])%load_iter_Continue Hne;
    [done|].
  intros fp series' Hfp. rewrite (points_of_lookup _ _ _ Hfp), Hpts.
  destruct (proj1 (Hdom fp) (mk_is_Some _ _ Hfp)) as [[series Hs]|Hnew].
  - specialize (Hne fp series Hs). rewrite (points_of_lookup _ _ _ Hs) in Hne.
    by destruct (points_of (window (rvi s)) fp).
  - rewrite ingested_one, decide_True by done. by intros [_ ?]%app_eq_nil.
Qed.

Lemma load_nonempty fuel start end_ s s' :
  load ParseMetric fuel start end_ s = Some s' →
  nonempty_entries s → nonempty_entries s'.
Proof.
  revert s. induction fuel as [|fuel IH]; intros s; [done|]. simpl.
  destruct (load_iter ParseMetric start end_ s) as [s1|s1] eqn:E.
  - by intros [= <-]; apply load_iter_Return in E as [-> _].
  - intros Hload Hne. apply (IH s1 Hload). by eapply load_iter_nonempty.
Qed.

Lemma Next_nonempty fuel s b s' :
  Next ParseMetric fuel s = Some (b, s') → nonempty_entries s → nonempty_entries s'.
Proof.
  destruct b.
  - intros (_ & Hload)%Next_true_inv _.
    eapply load_nonempty; [exact Hload|]. apply popBack_nonempty.
  - by intros (_ & ->)%Next_false_inv.
Qed.

Lemma reach_nonempty s s' :
  reach ParseMetric s s' → nonempty_entries s → nonempty_entries s'.
Proof.
  induction 1 as [s0|s0 s1 fuel b s2 _ IH HN]; [done|]. intros Hne.
  eapply Next_nonempty; [exact HN|]. by apply IH.
Qed.

(** X1. In every state that calls of [Next] reach from a newly constructed
    iterator, whatever the source, the bounds and the step, every entry of
    the window holds at least one point: [At] never hands an empty point
    list to the aggregator. *)
Theorem window_entries_never_empty (it : SeriesIterator.t) (sel st start e : Z)
    (pool : list promql.Series) (s : state) (order : list promql.Series) :
  reach ParseMetric (mkState (newRangeVectorIterator it sel st start e) pool) s →
  window_order s order →
  nonempty_entries s
  ∧ Forall (λ series, promql.Points series ≠ []) order.
Proof.
  intros Hreach Hord.
  assert (Hne : nonempty_entries s).
  { eapply reach_nonempty; [exact Hreach|].
    intros fp' series. simpl. by rewrite lookup_empty. }
  split; [done|]. apply Forall_forall. intros series Hin.
  apply (window_order_elem s order series Hord) in Hin as [fp Hfp]. by apply (Hne fp).
Qed.

Lemma load_iter_coherent start end_ s s' :
  load_iter ParseMetric start end_ s = Continue s' →
  cache_coherent ParseMetric s → cache_coherent ParseMetric s'.
Proof.
  unfold load_iter, load_series, SeriesIterator.Peek.
  destruct (SeriesIterator.pending (iter (rvi s))) as [|c rest]; simpl; [done|].
  destruct (TimestampNano c >? end_); [done|].
  destruct (TimestampNano c <=? start); [by intros [= <-]|].
  intros Hiter [Hcache Hwin].
  destruct (window (rvi s) !! Labels c) as [old|] eqn:Ew.
  { injection Hiter as <-. split; [done|]. simpl. intros fp series.
    destruct (decide (fp = Labels c)) as [->|Hne].
    - rewrite lookup_insert_eq. intros [= <-]. simpl. by apply Hwin.
    - rewrite lookup_insert_ne by done. apply Hwin. }
  destruct (metrics (rvi s) !! Labels c) as [metric|] eqn:Em.
  { destruct (getSeries (seriesPool s)) as [fresh pool]. injection Hiter as <-.
    split; [done|]. simpl. intros fp series.
    destruct (decide (fp = Labels c)) as [->|Hne].
    - rewrite lookup_insert_eq. by intros [= <-].
    - rewrite !lookup_insert_ne by done. apply Hwin. }
  destruct (ParseMetric (Labels c)) as [metric|] eqn:Ep; [|by injection Hiter as <-].
  destruct (getSeries (seriesPool s)) as [fresh pool]. injection Hiter as <-.
  split; simpl.
  - intros fp m. destruct (decide (fp = Labels c)) as [->|Hne].
    + rewrite lookup_insert_eq. by intros [= <-].
    + rewrite lookup_insert_ne by done. apply Hcache.
  - intros fp series. destruct (decide (fp = Labels c)) as [->|Hne].
    + rewrite !lookup_insert_eq. by intros [= <-].
    + rewrite !lookup_insert_ne by done. apply Hwin.
Qed.

Lemma load_coherent fuel start end_ s s' :
  load ParseMetric fuel start end_ s = Some s' →
  cache_coherent ParseMetric s → cache_coherent ParseMetric s'.
Proof.
  revert s. induction fuel as [|fuel IH]; intros s; [done|]. simpl.
  destruct (load_iter ParseMetric start end_ s) as [s1|s1] eqn:E.
  - by intros [= <-]; apply load_iter_Return in E as [-> _].
  - intros Hload Hc. apply (IH s1 Hload). by eapply load_iter_coherent.
Qed.

Lemma popBack_coherent newStart s :
  cache_coherent ParseMetric s → cache_coherent ParseMetric (popBack newStart s).
Proof.
  intros [Hcache Hwin]. destruct (popBack_frame newStart s) as (_ & _ & _ & _ & _ & Hm).
  split; rewrite Hm; [done|].
  intros fp series' (series & Hs & ->)%popBack_lookup_Some. by apply Hwin.
Qed.

Lemma Next_coherent fuel s b s' :
  Next ParseMetric fuel s = Some (b, s') →
  cache_coherent ParseMetric s → cache_coherent ParseMetric s'.
Proof.
  destruct b.
  - intros (_ & Hload)%Next_true_inv Hc.
    eapply load_coherent; [exact Hload|]. by apply popBack_coherent.
  - by intros (_ & ->)%Next_false_inv.
Qed.

Lemma reach_coherent s s' :
  reach ParseMetric s s' → cache_coherent ParseMetric s → cache_coherent ParseMetric s'.
Proof.
  induction 1 as [s0|s0 s1 fuel b s2 _ IH HN]; [done|]. intros Hc.
  eapply Next_coherent; [exact HN|]. by apply IH.
Qed.

(** X2. In every state that calls of [Next] reach from a newly constructed
    iterator, the labels cache holds only what [ParseMetric] returned for
    the fingerprint, and the metric of every window entry, which is the
    metric [At] emits, is the cached label set of its fingerprint and hence
    the parse of that fingerprint. *)
Theorem window_metric_is_parsed_fingerprint (it : SeriesIterator.t) (sel st start e : Z)
    (pool : list promql.Series) (s : state) (fp : string) (series : promql.Series) :
  reach ParseMetric (mkState (newRangeVectorIterator it sel st start e) pool) s →
  window (rvi s) !! fp = Some series →
  metrics (rvi s) !! fp = Some (promql.Metric series)
  ∧ ParseMetric fp = Some (promql.Metric series).
Proof.
  intros Hreach Hfp.
  assert (Hc : cache_coherent ParseMetric s).
  { eapply reach_coherent; [exact Hreach|].
    split; simpl; intros ? ?; by rewrite lookup_empty. }
  destruct Hc as [Hcache Hwin]. specialize (Hwin fp series Hfp).
  split; [done|]. by apply Hcache.
Qed.

Lemma Next_metrics_grow fuel s b s' :
  Next ParseMetric fuel s = Some (b, s') → metrics (rvi s) ⊆ metrics (rvi s').
Proof.
  destruct b.
  - intros (_ & Hload)%Next_true_inv.
    apply load_spec in Hload as (_ & _ & _ & _ & _ & _ & _ & Hm).
    destruct (popBack_frame
      (sub64 (add64 (current (rvi s)) (step (rvi s))) (selRange (rvi s)))
      (set_rvi s (set_current (rvi s) (add64 (current (rvi s)) (step (rvi s))))))
      as (_ & _ & _ & _ & _ & Hm'). by rewrite Hm' in Hm.
  - by intros (_ & ->)%Next_false_inv.
Qed.

(** X3. The labels cache is never evicted: a fingerprint that is cached
    in some state is cached, with the same labels, in every state later
    calls of [Next] reach, also after its series has left the window. *)
Theorem labels_cache_only_grows (s s' : state) (fp : string) (m : labels.Labels) :
  reach ParseMetric s s' →
  metrics (rvi s) !! fp = Some m →
  metrics (rvi s') !! fp = Some m.
Proof.
  intros Hreach. revert fp m.
  induction Hreach as [s0|s0 s1 fuel b s2 _ IH HN]; intros fp m Hm; [done|].
  eapply lookup_weaken; [apply IH, Hm|]. by eapply Next_metrics_grow.
Qed.

Lemma Next_consumes fuel s b s' :
  Next ParseMetric fuel s = Some (b, s') →
  ∃ cs, consumed_by cs (iter (rvi s)) (iter (rvi s'))
    ∧ Forall (λ c, TimestampNano c ≤ current (rvi s')) cs.
Proof.
  destruct b.
  - intros (cs & Hcons & Hall & _)%Next_true_consumes. by exists cs.
  - intros (_ & ->)%Next_false_inv. exists []. split; [apply consumed_by_nil|constructor].
Qed.

(** X4. The engine only moves the source forward, one call of [Next] per
    sample: between any two states of a run, whatever the source, the
    bounds and the step, the samples pending before are the samples
    consumed in between, in order, followed by the samples still pending;
    the call counter grew by exactly their number, so [Next] is never
    called on an exhausted source and no sample is read twice. *)
Theorem source_only_advances (s s' : state) :
  reach ParseMetric s s' →
  ∃ cs,
    SeriesIterator.pending (iter (rvi s)) = cs ++ SeriesIterator.pending (iter (rvi s'))
    ∧ SeriesIterator.consumed (iter (rvi s'))
      = reverse cs ++ SeriesIterator.consumed (iter (rvi s))
    ∧ SeriesIterator.nextCalls (iter (rvi s'))
      = (SeriesIterator.nextCalls (iter (rvi s)) + length cs)%nat
    ∧ source_of (iter (rvi s')) = source_of (iter (rvi s)).
Proof.
  intros Hreach.
  assert (H : ∃ cs, consumed_by cs (iter (rvi s)) (iter (rvi s'))).
  { induction Hreach as [s0|s0 s1 fuel b s2 _ [cs1 IH] HN].
    - exists []. apply consumed_by_nil.
    - apply Next_consumes in HN as (cs2 & Hcs2 & _).
      exists (cs1 ++ cs2). by eapply consumed_by_app. }
  destruct H as [cs Hcs]. exists cs.
  pose proof (consumed_by_source _ _ _ Hcs) as Hsrc.
  destruct Hcs as (H1 & H2 & H3). done.
Qed.

End Reachable.

(** ** Eviction *)

Lemma popBack_points_cons newStart p rest :
  popBack_points newStart (p :: rest) =
  if promql.T p <=? newStart then popBack_points newStart rest else p :: rest.
Proof.
  rewrite !popBack_points_drop. simpl. by destruct (promql.T p <=? newStart).
Qed.

Lemma popBack_points_nil newStart : popBack_points newStart [] = [].
Proof. done. Qed.

Lemma popBack_points_compose a b pts :
  a ≤ b → popBack_points b (popBack_points a pts) = popBack_points b pts.
Proof.
  intros Hab. induction pts as [|p rest IH]; [done|].
  rewrite (popBack_points_cons a), (popBack_points_cons b).
  destruct (promql.T p <=? a) eqn:Ea.
  - rewrite IH. destruct (promql.T p <=? b) eqn:Eb; [done|lia].
  - by rewrite popBack_points_cons.
Qed.

Lemma popBack_entry_compose a b series :
  a ≤ b →
  popBack_entry a series ≫= popBack_entry b = popBack_entry b series.
Proof.
  intros Hab. unfold popBack_entry.
  pose proof (popBack_points_compose a b (promql.Points series) Hab) as Hc.
  destruct (popBack_points a (promql.Points series)) as [|p rest] eqn:Ea; simpl.
  - rewrite popBack_points_nil in Hc. by rewrite <- Hc.
  - by rewrite Hc.
Qed.

(** X5. Evictions compose: for any orders in which the window is ranged
    over, evicting with a bound and then with a later bound leaves the
    iterator as one eviction with the later bound does, whether or not the
    points of the entries are in timestamp order.  In particular eviction
    is idempotent. *)
Theorem popBack_twice (a b : Z) (s : state) (keys1 keys2 keys : list string) :
  a ≤ b →
  window_keys s keys1 →
  window_keys (popBack_over keys1 a s) keys2 →
  window_keys s keys →
  rvi (popBack_over keys2 b (popBack_over keys1 a s)) = rvi (popBack_over keys b s).
Proof.
  intros Hab Hk1 Hk2 Hk.
  destruct (popBack_over_frame keys2 b (popBack_over keys1 a s))
    as (H1 & H2 & H3 & H4 & H5 & H6).
  destruct (popBack_over_frame keys1 a s) as (H1' & H2' & H3' & H4' & H5' & H6').
  destruct (popBack_over_frame keys b s) as (H1'' & H2'' & H3'' & H4'' & H5'' & H6'').
  apply rvi_eq; try congruence.
  apply map_eq. intros fp. rewrite !popBack_over_lookup by done.
  destruct (window (rvi s) !! fp) as [series|]; [|done]. simpl.
  by apply popBack_entry_compose.
Qed.

Lemma popBack_fp_id newStart s k :
  (∀ series, window (rvi s) !! k = Some series →
     ∃ p rest, promql.Points series = p :: rest ∧ newStart < promql.T p) →
  popBack_fp newStart s k = s.
Proof.
  intros Hhead. unfold popBack_fp.
  destruct (window (rvi s) !! k) as [series|] eqn:E; [|done].
  destruct (Hhead series eq_refl) as (p & rest & Hpts & Hp).
  simpl. rewrite Hpts, popBack_points_cons.
  destruct (promql.T p <=? newStart) eqn:Ep; [lia|]. simpl.
  rewrite <- Hpts. replace (promql.mkSeries (promql.Metric series) (promql.Points series))
    with series by (by destruct series).
  rewrite insert_id by done. by destruct s as [[] ?].
Qed.

(** X6. Eviction looks at the front of an entry only: when the first
    point of every entry is later than the bound, [popBack] leaves the
    whole state, window store and pool included, as it was, whatever the
    timestamps behind the first point and whatever the order in which the
    window is ranged over. *)
Theorem popBack_keeps_fresh_entries (keys : list string) (newStart : Z) (s : state) :
  (∀ fp series, window (rvi s) !! fp = Some series →
     ∃ p rest, promql.Points series = p :: rest ∧ newStart < promql.T p) →
  popBack_over keys newStart s = s.
Proof.
  intros Hhead. unfold popBack_over.
  induction keys as [|k keys IH]; [done|]. simpl.
  rewrite popBack_fp_id; [done|]. intros series. apply Hhead.
Qed.

Lemma popBack_points_all_expired newStart pts :
  Forall (λ p, promql.T p ≤ newStart) pts → popBack_points newStart pts = [].
Proof.
  induction 1 as [|p rest Hp _ IH]; [done|].
  rewrite popBack_points_cons. destruct (promql.T p <=? newStart) eqn:E; [done|lia].
Qed.

(** X7. When no point of the window is later than the bound, [popBack]
    empties the window store and hands every entry to the pool: the pool
    grows by the number of entries, each released series without points. *)
Theorem popBack_evicts_everything (keys : list string) (newStart : Z) (s : state) :
  window_keys s keys →
  (∀ fp series, window (rvi s) !! fp = Some series →
     Forall (λ p, promql.T p ≤ newStart) (promql.Points series)) →
  let s' := popBack_over keys newStart s in
  window (rvi s') = ∅
  ∧ length (seriesPool s') = (length (seriesPool s) + size (window (rvi s)))%nat
  ∧ ∀ x, x ∈ seriesPool s' → x ∈ seriesPool s ∨ promql.Points x = [].
Proof.
  intros Hk Hall s'.
  assert (Hentry : ∀ fp series, window (rvi s) !! fp = Some series →
            popBack_points newStart (promql.Points series) = []).
  { intros fp series Hfp. apply popBack_points_all_expired. by eapply Hall. }
  unfold s'. split; [|split].
  - apply map_eq. intros fp. rewrite popBack_over_lookup, lookup_empty by done.
    destruct (window (rvi s) !! fp) as [series|] eqn:E; [|done]. simpl.
    unfold popBack_entry. by rewrite (Hentry fp series E).
  - rewrite popBack_over_pool by (by eapply window_keys_NoDup).
    rewrite length_app, length_reverse.
    assert (length (released newStart (window (rvi s)) keys) = length keys) as ->.
    { assert (Hin : ∀ k, k ∈ keys → is_Some (window (rvi s) !! k)).
      { intros k. by apply window_keys_elem. }
      clear Hk s'. unfold released. induction keys as [|k keys IH]; [done|]. simpl.
      destruct (Hin k ltac:(by left)) as [series Hs]. rewrite Hs. simpl.
      unfold popBack_entry. rewrite (Hentry k series Hs). simpl.
      f_equal. apply IH. intros k' Hk'. apply Hin. by right. }
    unfold window_keys in Hk. rewrite Hk, length_fmap, length_map_to_list. lia.
  - intros x. rewrite popBack_over_pool by (by eapply window_keys_NoDup).
    rewrite elem_of_app, elem_of_reverse.
    intros [Hrel|?]; [|by left].
    apply (released_elem newStart s keys x Hk) in Hrel as (fp & series & _ & _ & ->).
    by right.
Qed.

(** ** Termination of ingestion *)

Section Termination.

Variable ParseMetric : string → option labels.Labels.

Lemma load_iter_resolvable start end_ s s' c' :
  load_iter ParseMetric start end_ s = Continue s' →
  resolvable ParseMetric s c' → resolvable ParseMetric s' c'.
Proof.
  intros (c & rest & _ & _ & [(-> & _)|(Hadv & _ & _ & Hdom)])%load_iter_Continue; [done|].
  destruct Hadv as (_ & _ & _ & Hm).
  intros [Hw|[[m Hc]|Hp]].
  - left. apply Hdom. by left.
  - right. left. exists m. by eapply lookup_weaken.
  - by right; right.
Qed.

Lemma load_terminates_resolvable (fuel : nat) (start end_ : Z) (s : state) :
  Forall (λ c, start < TimestampNano c ≤ end_ → resolvable ParseMetric s c)
         (SeriesIterator.pending (iter (rvi s))) →
  (length (SeriesIterator.pending (iter (rvi s))) < fuel)%nat →
  ∃ s', load ParseMetric fuel start end_ s = Some s'
    ∧ head_after end_ (iter (rvi s')).
Proof.
  revert s. induction fuel as [|fuel IH]; intros s Hall Hlen; [lia|]. simpl.
  destruct (load_iter ParseMetric start end_ s) as [s1|s1] eqn:E.
  { exists s1. split; [done|]. by apply load_iter_Return in E as [-> ?]. }
  pose proof (load_iter_Continue _ _ _ _ _ E)
    as (c & rest & Hp & Hle & [(-> & Hgt & Hnone)|((_ & Hit & _) & _)]).
  - rewrite Hp in Hall. apply Forall_cons in Hall as [Hc _].
    apply load_series_None in Hnone as (Hw & Hm & Hparse).
    destruct (Hc ltac:(lia)) as [[? ?]|[[? ?]|[? ?]]]; congruence.
  - rewrite Hp in Hall, Hlen. apply Forall_cons in Hall as [_ Hall]. simpl in Hlen.
    apply IH; rewrite Hit; simpl; [|lia].
    eapply Forall_impl; [exact Hall|]. simpl. intros c' Hc' Hin.
    eapply load_iter_resolvable; [exact E|]. by apply Hc'.
Qed.

(** X8. [load] returns as soon as the samples it has to store can be
    resolved: when every pending sample with a timestamp inside the window
    has its fingerprint in the window store or in the labels cache, or has
    a fingerprint that parses, the loop ends within one iteration per
    pending sample and one more, in front of the first sample later than
    [end_].  Samples at or before [start] and samples after [end_] may carry
    fingerprints that do not parse: they are never parsed. *)
Theorem load_returns_when_window_resolves (fuel : nat) (start end_ : Z) (s : state) :
  Forall (λ c, start < TimestampNano c ≤ end_ → resolvable ParseMetric s c)
         (SeriesIterator.pending (iter (rvi s))) →
  (length (SeriesIterator.pending (iter (rvi s))) < fuel)%nat →
  ∃ s', load ParseMetric fuel start end_ s = Some s'
    ∧ head_after end_ (iter (rvi s')).
Proof. apply load_terminates_resolvable. Qed.

End Termination.

(** ** Window positions *)

Lemma wrap64_add_l (a b : Z) : wrap64 (wrap64 a + b) = wrap64 (a + b).
Proof.
  unfold wrap64. f_equal.
  replace ((a + 2 ^ 63) `mod` 2 ^ 64 - 2 ^ 63 + b + 2 ^ 63)
    with ((a + 2 ^ 63) `mod` 2 ^ 64 + b) by lia.
  rewrite Z.add_mod_idemp_l by lia. f_equal. lia.
Qed.

Section Positions.

Variable ParseMetric : string → option labels.Labels.

Lemma Next_n_current fuel calls s bs s' :
  Next_n ParseMetric fuel (S calls) s = Some (bs, s') →
  current (rvi s') = wrap64 (current (rvi s) + (Z.of_nat calls + 1) * step (rvi s))
  ∧ step (rvi s') = step (rvi s)
  ∧ length bs = S calls.
Proof.
  revert s bs s'. induction calls as [|calls IH]; intros s bs s'.
  - simpl. destruct (Next ParseMetric fuel s) as [[b s1]|] eqn:HN; [|done].
    intros [= <- <-]. apply Next_config in HN as (_ & Hst & _ & Hc).
    rewrite Hc. unfold add64. split; [f_equal; lia|done].
  - change (Next_n ParseMetric fuel (S (S calls)) s) with
      (match Next ParseMetric fuel s with
       | None => None
       | Some (b, s1) =>
           match Next_n ParseMetric fuel (S calls) s1 with
           | None => None
           | Some (bs, s2) => Some (b :: bs, s2)
           end
       end).
    destruct (Next ParseMetric fuel s) as [[b s1]|] eqn:HN; [|done].
    destruct (Next_n ParseMetric fuel (S calls) s1) as [[bs1 s2]|] eqn:Hn; [|done].
    intros [= <- <-]. apply IH in Hn as (Hc2 & Hst2 & Hlen).
    apply Next_config in HN as (_ & Hst & _ & Hc).
    rewrite Hc2, Hst2, Hst, Hc. unfold add64. rewrite wrap64_add_l.
    split; [f_equal; lia|]. split; [done|]. simpl. by rewrite Hlen.
Qed.

(** X9. [current] moves by the stored step on every call of [Next],
    whatever the call returns: after [k + 1] calls on a newly constructed
    iterator with [start] within int64 it is [start + k * step] in int64
    arithmetic, [step] being the stored step.  The first call lands on
    [start], also when [start - step] overflowed at construction. *)
Theorem position_after_calls (it : SeriesIterator.t) (sel st start e : Z)
    (pool : list promql.Series) (fuel k : nat) (bs : list bool) (s' : state) :
  min_int64 ≤ start ≤ max_int64 →
  Next_n ParseMetric fuel (S k)
    (mkState (newRangeVectorIterator it sel st start e) pool) = Some (bs, s') →
  current (rvi s') = wrap64 (start + Z.of_nat k * effective_step st)
  ∧ (k = O → current (rvi s') = start).
Proof.
  intros Hstart Hn. apply Next_n_current in Hn as (Hc & _ & _).
  simpl in Hc. fold (effective_step st) in Hc.
  unfold sub64 in Hc. rewrite wrap64_add_l in Hc.
  assert (current (rvi s') = wrap64 (start + Z.of_nat k * effective_step st)) as Hc'.
  { rewrite Hc. f_equal. lia. }
  split; [done|]. intros ->. rewrite Hc'.
  replace (start + Z.of_nat 0 * effective_step st) with start by lia.
  by apply wrap64_id.
Qed.

Lemma drive_count fuel calls s :
  1 ≤ step (rvi s) →
  min_int64 ≤ current (rvi s) →
  current (rvi s) + step (rvi s) ≤ max_int64 →
  end_ (rvi s) + step (rvi s) ≤ max_int64 →
  Forall (λ c, is_Some (ParseMetric (Labels c))) (SeriesIterator.pending (iter (rvi s))) →
  (length (SeriesIterator.pending (iter (rvi s))) < fuel)%nat →
  (Z.to_nat (end_ (rvi s) - current (rvi s)) < calls)%nat →
  ∃ k sf,
    drive ParseMetric fuel calls s = Some (k, sf)
    ∧ end_ (rvi s) < current (rvi s) + (Z.of_nat k + 1) * step (rvi s)
    ∧ (k ≠ O → current (rvi s) + Z.of_nat k * step (rvi s) ≤ end_ (rvi s)).
Proof.
  revert s. induction calls as [|calls IH]; intros s Hstep Hmin Hmax Hemax Hall Hlen Hcalls;
    [lia|].
  assert (Hadd : add64 (current (rvi s)) (step (rvi s)) = current (rvi s) + step (rvi s)).
  { unfold add64. apply wrap64_id. lia. }
  simpl. destruct (decide (current (rvi s) + step (rvi s) ≤ end_ (rvi s))) as [Hle|Hgt].
  - destruct (Next_true_terminates ParseMetric fuel s Hall Hlen) as [s1 HN]; [lia|].
    rewrite HN.
    pose proof (Next_config _ _ _ _ _ HN) as (_ & Hst & He & Hc). rewrite Hadd in Hc.
    destruct (Next_true_consumes _ _ _ _ HN) as (cs1 & (Hp1 & _) & _).
    destruct (IH s1) as (k & sf & -> & Hend & Hk); rewrite ?Hst, ?He, ?Hc; try lia.
    + rewrite Hp1 in Hall. by apply Forall_app in Hall as [_ ?].
    + rewrite Hp1, length_app in Hlen. lia.
    + exists (S k), sf. rewrite Hc, Hst, He in *. split; [done|]. split; [lia|].
      intros _. destruct k as [|k]; [lia|]. specialize (Hk ltac:(done)). lia.
  - rewrite Next_false by lia. eexists O, _. split; [done|]. split; [lia|done].
Qed.

(** X10. The number of evaluation steps.  For an iterator constructed with
    a step of 0 or more over a source whose fingerprints parse, with bounds
    away from the limits of int64, the evaluator's loop ends after exactly
    as many successful calls of [Next] as there are positions [start],
    [start + step], ... up to [e], the step being the stored one; with
    [start = e] that is one step, also for a configured step of 0. *)
Theorem number_of_steps (src : list Sample) (sel st start e : Z)
    (pool : list promql.Series) :
  0 ≤ st →
  min_int64 ≤ start - effective_step st → start ≤ max_int64 →
  e + effective_step st ≤ max_int64 →
  Forall (λ c, is_Some (ParseMetric (Labels c))) src →
  ∃ sf,
    drive ParseMetric (S (length src)) (S (Z.to_nat (e - start + effective_step st)))
      (mkState (newRangeVectorIterator (SeriesIterator.of_list src) sel st start e) pool)
    = Some (positions (effective_step st) start e, sf)
    ∧ (start = e → positions (effective_step st) start e = 1%nat).
Proof.
  intros Hst Hmin Hmaxs Hmaxe Hall.
  set (st' := effective_step st) in *.
  assert (Hst' : 1 ≤ st').
  { unfold st', effective_step. destruct (st =? 0) eqn:E; lia. }
  set (s0 := mkState (newRangeVectorIterator (SeriesIterator.of_list src) sel st start e) pool).
  assert (Hstep : step (rvi s0) = st') by done.
  assert (Hcur : current (rvi s0) = start - st').
  { simpl. fold (effective_step st). fold st'. unfold sub64. apply wrap64_id. lia. }
  destruct (drive_count (S (length src)) (S (Z.to_nat (e - start + st'))) s0)
    as (k & sf & Hdrive & Hend & Hk); rewrite ?Hcur, ?Hstep; try done; try lia.
  { simpl. lia. }
  { change (end_ (rvi s0)) with e. lia. }
  change (end_ (rvi s0)) with e in *. rewrite Hcur, Hstep in *.
  assert (Hpos : positions st' start e = k).
  { unfold positions. destruct (start <=? e) eqn:Ese.
    - destruct k as [|k]; [lia|]. specialize (Hk ltac:(done)).
      assert ((e - start) / st' = Z.of_nat k) as ->; [|lia].
      symmetry. apply (Z.div_unique_pos _ _ _ (e - start - Z.of_nat k * st')); lia.
    - destruct k as [|k]; [done|]. specialize (Hk ltac:(done)). nia. }
  exists sf. split; [by rewrite Hpos|].
  intros ->. unfold positions. rewrite Z.leb_refl, Z.sub_diag, Z.div_0_l by lia. done.
Qed.

End Positions.

(** ** The window as a slice of the source *)

Lemma filter_all_gt ns pts :
  Forall (λ p, ns < promql.T p) pts → filter (λ p, ns < promql.T p) pts = pts.
Proof.
  induction 1 as [|p rest Hp _ IH]; [done|]. by rewrite filter_cons_True, IH.
Qed.

Lemma popBack_points_filter newStart pts :
  ascending pts → popBack_points newStart pts = filter (λ p, newStart < promql.T p) pts.
Proof.
  intros Hasc%ascending_strongly. induction Hasc as [|p rest Hrest IH Hp]; [done|].
  rewrite popBack_points_cons. destruct (promql.T p <=? newStart) eqn:E.
  - rewrite filter_cons_False by lia. done.
  - symmetry. apply filter_all_gt. constructor; [lia|].
    eapply Forall_impl; [exact Hp|]. simpl. lia.
Qed.

Lemma filter_ingested lo ns fp cs :
  lo ≤ ns → filter (λ p, ns < promql.T p) (ingested lo fp cs) = ingested ns fp cs.
Proof.
  intros Hle. induction cs as [|c cs IH]; [done|].
  rewrite (ingested_cons lo), (ingested_cons ns), filter_app, IH. f_equal.
  rewrite !ingested_one.
  destruct (decide (Labels c = fp ∧ lo < TimestampNano c)) as [[Hl Hlo]|Hn1];
    destruct (decide (Labels c = fp ∧ ns < TimestampNano c)) as [[Hl' Hns]|Hn2].
  - by rewrite filter_cons_True.
  - rewrite filter_cons_False; [done|]. simpl. intros ?. by apply Hn2.
  - exfalso. apply Hn1. split; [done|lia].
  - done.
Qed.

Lemma in_range_consumed src1 src2 fp lo hi :
  Forall (λ c, TimestampNano c ≤ hi) src1 →
  Forall (λ c, hi < TimestampNano c) src2 →
  in_range_points (src1 ++ src2) fp lo hi = ingested lo fp src1.
Proof.
  intros H1 H2. unfold in_range_points, ingested. rewrite filter_app, fmap_app.
  assert (filter (λ c, Labels c = fp ∧ lo < TimestampNano c ≤ hi) src2 = []) as ->.
  { induction H2 as [|c rest Hc _ IH]; [done|]. rewrite filter_cons_False; [done|]. lia. }
  rewrite app_nil_r. f_equal.
  induction H1 as [|c rest Hc _ IH]; [done|]. rewrite !filter_cons, IH.
  repeat case_decide; try done; exfalso; intuition lia.
Qed.

Section Slice.

Variable ParseMetric : string → option labels.Labels.

Lemma Next_slice fuel s b s' :
  Next ParseMetric fuel s = Some (b, s') →
  engine_inv s → slice_inv s →
  current (rvi s) + step (rvi s) ≤ max_int64 →
  min_int64 ≤ current (rvi s) + step (rvi s) - selRange (rvi s) →
  end_ (rvi s) - selRange (rvi s) ≤ max_int64 →
  slice_inv s'
  ∧ (b = true →
       head_after (current (rvi s')) (iter (rvi s'))
       ∧ ∀ fp, points_of (window (rvi s')) fp
               = ingested (current (rvi s') - selRange (rvi s')) fp
                   (reverse (SeriesIterator.consumed (iter (rvi s'))))).
Proof.
  intros HN Hinv (Hcons & lo & Hlo & Hwin) Hmax Hsmin Hsmax.
  pose proof Hinv as ((_ & Hasc & _) & _ & Hrange & Hstep).
  pose proof (Next_config _ _ _ _ _ HN) as (Hsel & Hst & He & Hc).
  assert (Hadd : add64 (current (rvi s)) (step (rvi s)) = current (rvi s) + step (rvi s)).
  { unfold add64. apply wrap64_id. lia. }
  rewrite Hadd in Hc.
  destruct b.
  - destruct (Next_true_consumes _ _ _ _ HN) as (cs & Hcs & Hall & Hhead).
    apply Next_true_inv in HN as (Hle & Hload). rewrite Hadd in Hload, Hle.
    set (c := current (rvi s) + step (rvi s)) in *.
    assert (Hsub : sub64 c (selRange (rvi s)) = c - selRange (rvi s)).
    { unfold sub64. apply wrap64_id. lia. }
    rewrite Hsub in Hload.
    apply load_spec in Hload as (cs' & Hcs' & _ & _ & Hpts & _).
    destruct (popBack_frame (c - selRange (rvi s)) (set_rvi s (set_current (rvi s) c)))
      as (Hit & _).
    rewrite Hit in Hcs'. simpl in Hcs'.
    assert (cs' = cs) as ->.
    { destruct Hcs as (Hp1 & _), Hcs' as (Hp2 & _). rewrite Hp1 in Hp2.
      by apply app_inv_tail in Hp2. }
    destruct Hcs as (_ & Hcons' & _).
    assert (Hwin' : ∀ fp, points_of (window (rvi s')) fp
              = ingested (c - selRange (rvi s)) fp
                  (reverse (SeriesIterator.consumed (iter (rvi s'))))).
    { intros fp. rewrite Hpts, points_of_popBack. simpl.
      rewrite popBack_points_filter by apply Hasc.
      rewrite Hwin, filter_ingested by (unfold c; lia).
      by rewrite Hcons', reverse_app, reverse_involutive, ingested_app. }
    split; [split|].
    + rewrite Hcons', Hc. apply Forall_app. split; [by apply Forall_reverse; rewrite <- Hc|].
      eapply Forall_impl; [exact Hcons|]. simpl. unfold c. lia.
    + exists (c - selRange (rvi s)). rewrite Hc, Hst, Hsel. split; [lia|done].
    + intros _. split; [exact Hhead|]. rewrite Hc, Hsel. exact Hwin'.
  - apply Next_false_inv in HN as (_ & ->). split; [|done]. split; simpl.
    + rewrite Hadd. eapply Forall_impl; [exact Hcons|]. simpl. lia.
    + exists lo. rewrite Hadd. split; [lia|done].
Qed.

Lemma run_slice (src : list Sample) (sel st start e : Z) (pool : list promql.Series)
    (s : state) :
  1 ≤ st → min_int64 ≤ start - st → start ≤ max_int64 →
  min_int64 ≤ start - sel → e - sel ≤ max_int64 →
  nondecreasing src →
  run ParseMetric
    (mkState (newRangeVectorIterator (SeriesIterator.of_list src) sel st start e) pool) s →
  engine_inv s ∧ slice_inv s ∧ start - st ≤ current (rvi s)
  ∧ selRange (rvi s) = sel ∧ step (rvi s) = st ∧ end_ (rvi s) = e
  ∧ source_of (iter (rvi s)) = src.
Proof.
  intros Hst Hmin Hmaxs Hsmin Hsmax Hsrc Hrun.
  remember (mkState (newRangeVectorIterator (SeriesIterator.of_list src) sel st start e) pool)
    as s0 eqn:Hs0.
  induction Hrun as [s0|s0 s1 fuel b s2 Hrun IH Hmax HN].
  - subst s0. assert (Heff : (if st =? 0 then 1 else st) = st).
    { destruct (st =? 0) eqn:E; [lia|done]. }
    split; [by apply engine_inv_new|]. unfold slice_inv. simpl. rewrite Heff.
    assert (Hsub : sub64 start st = start - st).
    { unfold sub64. apply wrap64_id. lia. }
    rewrite Hsub. repeat split; try done; try lia.
    exists (start - st + st - sel). split; [lia|done].
  - destruct (IH Hs0) as (Hinv & Hslice & Hlow & Hsel & Hstep & He & Hsource).
    pose proof (Next_config _ _ _ _ _ HN) as (Hsel' & Hst' & He' & Hc).
    assert (Hadd : add64 (current (rvi s1)) (step (rvi s1))
                   = current (rvi s1) + step (rvi s1)).
    { unfold add64. apply wrap64_id. destruct Hinv as (_ & _ & ? & ?). lia. }
    destruct (Next_inv _ _ _ _ _ HN Hinv Hmax) as [Hinv' _].
    destruct (Next_slice _ _ _ _ HN Hinv Hslice Hmax) as [Hslice' _]; [lia..|].
    destruct (Next_consumes _ _ _ _ _ HN) as (cs & Hcs & _).
    split; [done|]. split; [done|]. rewrite Hc, Hadd, Hsel', Hst', He'.
    repeat split; try done; try lia.
    by rewrite (consumed_by_source _ _ _ Hcs).
Qed.

(** The content of the window after a successful call of [Next] in a run
    from a newly constructed iterator. *)
Lemma run_window_slice (src : list Sample) (sel st start e : Z)
    (pool : list promql.Series) (s s' : state) (fuel : nat) (fp : string) :
  1 ≤ st → min_int64 ≤ start - st → start ≤ max_int64 →
  min_int64 ≤ start - sel → e - sel ≤ max_int64 →
  nondecreasing src →
  run ParseMetric
    (mkState (newRangeVectorIterator (SeriesIterator.of_list src) sel st start e) pool) s →
  current (rvi s) + step (rvi s) ≤ max_int64 →
  Next ParseMetric fuel s = Some (true, s') →
  points_of (window (rvi s')) fp
  = in_range_points src fp (current (rvi s') - sel) (current (rvi s')).
Proof.
  intros Hst Hmin Hmaxs Hsmin Hsmax Hsrc Hrun Hmax HN.
  destruct (run_slice src sel st start e pool s Hst Hmin Hmaxs Hsmin Hsmax Hsrc Hrun)
    as (Hinv & Hslice & Hlow & Hsel & Hstep & He & Hsource).
  pose proof (Next_true_inv _ _ _ _ HN) as (Hle & _).
  assert (Hadd : add64 (current (rvi s)) (step (rvi s)) = current (rvi s) + step (rvi s)).
  { unfold add64. apply wrap64_id. destruct Hinv as (_ & _ & ? & ?). lia. }
  rewrite Hadd in Hle.
  destruct (Next_slice _ _ _ _ HN Hinv Hslice Hmax) as [[Hcons _] Htrue]; [lia..|].
  destruct (Htrue eq_refl) as [Hhead Hwin].
  destruct (Next_inv _ _ _ _ _ HN Hinv Hmax) as [((Hpend & _) & _) _].
  destruct (Next_consumes _ _ _ _ _ HN) as (cs & Hcs & _).
  pose proof (consumed_by_source _ _ _ Hcs) as Hsource'.
  pose proof (Next_config _ _ _ _ _ HN) as (Hsel' & _).
  rewrite Hwin, Hsel', Hsel, <- Hsource, <- Hsource'. unfold source_of. symmetry.
  apply in_range_consumed; [by apply Forall_reverse|by apply head_after_all].
Qed.

(** X11. The window is a slice of the source.  For an iterator constructed
    with step at least 1 and bounds away from the limits of int64, over a
    source in non-decreasing timestamp order: after a successful call of
    [Next] in a run, the entry of a fingerprint holds exactly the points of
    the source samples of that fingerprint with a timestamp in
    [(current - selRange, current]], duplicates included, in source order;
    a fingerprint without such a sample has no entry. *)
Theorem window_is_source_slice (src : list Sample) (sel st start e : Z)
    (pool : list promql.Series) (s s' : state) (fuel : nat) (fp : string) :
  1 ≤ st → min_int64 ≤ start - st → start ≤ max_int64 →
  min_int64 ≤ start - sel → e - sel ≤ max_int64 →
  nondecreasing src →
  run ParseMetric
    (mkState (newRangeVectorIterator (SeriesIterator.of_list src) sel st start e) pool) s →
  current (rvi s) + step (rvi s) ≤ max_int64 →
  Next ParseMetric fuel s = Some (true, s') →
  match window (rvi s') !! fp with
  | Some series =>
      promql.Points series
      = in_range_points src fp (current (rvi s') - sel) (current (rvi s'))
      ∧ promql.Points series ≠ []
  | None => in_range_points src fp (current (rvi s') - sel) (current (rvi s')) = []
  end.
Proof.
  intros Hst Hmin Hmaxs Hsmin Hsmax Hsrc Hrun Hmax HN.
  pose proof (run_window_slice src sel st start e pool s s' fuel fp
                Hst Hmin Hmaxs Hsmin Hsmax Hsrc Hrun Hmax HN) as Hslice.
  assert (Hne : nonempty_entries s').
  { eapply Next_nonempty; [exact HN|]. eapply reach_nonempty; [by apply run_reach|].
    intros fp' series. simpl. by rewrite lookup_empty. }
  unfold points_of in Hslice.
  destruct (window (rvi s') !! fp) as [series|] eqn:E; [|done].
  split; [done|]. by apply (Hne fp).
Qed.

(** X12. What [At] returns after a successful call of [Next], under the
    conditions of X11 and for any order in which the window is ranged over:
    the vector holds, for every fingerprint that has a source sample with a
    timestamp in [(current - selRange, current]], one sample whose value is
    the aggregator applied to the points of those source samples and whose
    metric is the parse of the fingerprint, and it holds nothing else. *)
Theorem At_aggregates_source_slice (src : list Sample) (sel st start e : Z)
    (pool : list promql.Series) (s s' : state) (fuel : nat)
    (aggregator : RangeVectorAggregator) (order : list promql.Series)
    (smp : promql.Sample) :
  1 ≤ st → min_int64 ≤ start - st → start ≤ max_int64 →
  min_int64 ≤ start - sel → e - sel ≤ max_int64 →
  nondecreasing src →
  run ParseMetric
    (mkState (newRangeVectorIterator (SeriesIterator.of_list src) sel st start e) pool) s →
  current (rvi s) + step (rvi s) ≤ max_int64 →
  Next ParseMetric fuel s = Some (true, s') →
  window_order s' order →
  let hi := current (rvi s') in
  let ts := Z.quot hi 1000000 in
  smp ∈ (At_over order aggregator s').1.2 ↔
  ∃ fp m,
    in_range_points src fp (hi - sel) hi ≠ []
    ∧ ParseMetric fp = Some m
    ∧ smp = promql.mkSample
              (promql.mkPoint ts (aggregator (in_range_points src fp (hi - sel) hi))) m.
Proof.
  intros Hst Hmin Hmaxs Hsmin Hsmax Hsrc Hrun Hmax HN Hord hi ts.
  assert (Hslice : ∀ fp, points_of (window (rvi s')) fp
                         = in_range_points src fp (hi - sel) hi).
  { intros fp. by eapply run_window_slice. }
  assert (Hreach : reach ParseMetric
            (mkState (newRangeVectorIterator (SeriesIterator.of_list src) sel st start e) pool)
            s').
  { eapply reach_Next; [by apply run_reach|exact HN]. }
  assert (Hne : nonempty_entries s').
  { eapply reach_nonempty; [exact Hreach|].
    intros fp' series. simpl. by rewrite lookup_empty. }
  assert (Hcoh : cache_coherent ParseMetric s').
  { eapply reach_coherent; [exact Hreach|].
    split; simpl; intros ? ?; by rewrite lookup_empty. }
  destruct Hcoh as [Hcache Hwin].
  rewrite At_over_eq. cbn [fst snd]. fold hi. fold ts.
  rewrite list_elem_of_fmap. split.
  - intros (series & -> & Hin).
    apply (window_order_elem s' order series Hord) in Hin as [fp Hfp].
    exists fp, (promql.Metric series).
    rewrite <- Hslice, <- (points_of_lookup _ _ _ Hfp).
    split; [by apply (Hne fp)|]. split; [by apply Hcache, Hwin|done].
  - intros (fp & m & Hnonempty & Hparse & ->).
    rewrite <- Hslice in Hnonempty |- *. unfold points_of in *.
    destruct (window (rvi s') !! fp) as [series|] eqn:Hfp; [|done].
    exists series. split.
    + unfold At_sample. do 2 f_equal.
      pose proof (Hcache _ _ (Hwin _ _ Hfp)) as Hm. congruence.
    + apply (window_order_elem s' order series Hord). by exists fp.
Qed.

End Slice.

(** ** Pooled series and calls after the end *)

Section Reuse.

Variable ParseMetric : string → option labels.Labels.

Lemma At_any_pool (aggregator : RangeVectorAggregator) (t1 t2 : state) :
  rvi t1 = rvi t2 → (At aggregator t1).1 = (At aggregator t2).1.
Proof. intros H. unfold At. rewrite !At_over_eq. cbn [fst snd]. by rewrite H. Qed.

(** X13. What the pool holds never reaches the iterator.  Two runs of the
    same calls of [Next] on the same iterator, started with different
    pools, holding whatever series with whatever metrics and points, both
    return or both do not, return the same results and leave the same
    iterator, so [At] answers the same: a series taken from the pool brings
    neither points nor a metric into the window. *)
Theorem pool_never_reaches_iterator (fuel calls : nat) (s1 s2 : state)
    (aggregator : RangeVectorAggregator) :
  rvi s1 = rvi s2 →
  match Next_n ParseMetric fuel calls s1, Next_n ParseMetric fuel calls s2 with
  | Some (bs1, t1), Some (bs2, t2) =>
      bs1 = bs2 ∧ rvi t1 = rvi t2 ∧ (At aggregator t1).1 = (At aggregator t2).1
  | None, None => True
  | _, _ => False
  end.
Proof.
  revert s1 s2. induction calls as [|calls IH]; intros s1 s2 H.
  { simpl. split; [done|]. split; [done|]. by apply At_any_pool. }
  simpl. pose proof (Next_any_pool ParseMetric fuel s1 s2 H) as HN.
  destruct (Next ParseMetric fuel s1) as [[b1 u1]|], (Next ParseMetric fuel s2) as [[b2 u2]|];
    simpl in HN; try done.
  injection HN as -> Hu. specialize (IH u1 u2 Hu).
  destruct (Next_n ParseMetric fuel calls u1) as [[bs1 t1]|],
           (Next_n ParseMetric fuel calls u2) as [[bs2 t2]|]; try done.
  destruct IH as (-> & ? & ?). done.
Qed.

(** X14. After a call of [Next] that returned false, [At] still answers:
    it returns the vector of the last window, entry for entry, under a
    timestamp that has moved on with [current].  The window store is not
    cleared at the end of the range. *)
Theorem At_after_exhaustion (fuel : nat) (s s' : state) (order : list promql.Series)
    (aggregator : RangeVectorAggregator) :
  Next ParseMetric fuel s = Some (false, s') →
  window_order s order →
  window_order s' order
  ∧ (At_over order aggregator s').1.1
    = Z.quot (add64 (current (rvi s)) (step (rvi s))) 1000000
  ∧ promql.Sample_Metric <$> (At_over order aggregator s').1.2
    = promql.Sample_Metric <$> (At_over order aggregator s).1.2
  ∧ (λ smp, promql.V (promql.Sample_Point smp)) <$> (At_over order aggregator s').1.2
    = (λ smp, promql.V (promql.Sample_Point smp)) <$> (At_over order aggregator s).1.2.
Proof.
  intros (_ & ->)%Next_false_inv Hord. rewrite !At_over_eq. cbn [fst snd].
  split; [done|]. split; [done|].
  rewrite <- !list_fmap_compose. split; by apply list_fmap_ext.
Qed.

End Reuse.

(** ** Selectors without width *)

Section EmptySelector.

Variable ParseMetric : string → option labels.Labels.

Lemma load_iter_empty_window start end_ s s' :
  end_ ≤ start →
  load_iter ParseMetric start end_ s = Continue s' →
  window (rvi s') = window (rvi s) ∧ metrics (rvi s') = metrics (rvi s).
Proof.
  intros Hinv
    (c & rest & _ & Hle & [(-> & _)|(_ & Hsame & _)])%load_iter_Continue; [done|].
  destruct Hsame as (? & ? & _); [lia|done].
Qed.

Lemma load_empty_window fuel start end_ s s' :
  end_ ≤ start →
  load ParseMetric fuel start end_ s = Some s' →
  window (rvi s') = window (rvi s) ∧ metrics (rvi s') = metrics (rvi s).
Proof.
  intros Hinv. revert s. induction fuel as [|fuel IH]; intros s; [done|]. simpl.
  destruct (load_iter ParseMetric start end_ s) as [s1|s1] eqn:E.
  - by intros [= <-]; apply load_iter_Return in E as [-> _].
  - intros Hload. apply IH in Hload as [-> ->]. by eapply load_iter_empty_window.
Qed.

Lemma popBack_empty_window newStart s :
  window (rvi s) = ∅ → window (rvi (popBack newStart s)) = ∅.
Proof.
  intros Hw. apply map_eq. intros fp. unfold popBack.
  rewrite popBack_over_lookup by apply window_keys_canonical.
  by rewrite Hw, lookup_empty.
Qed.

Lemma Next_empty_selector fuel s b s' :
  selRange (rvi s) ≤ 0 → end_ (rvi s) - selRange (rvi s) ≤ max_int64 →
  Next ParseMetric fuel s = Some (b, s') →
  window (rvi s) = ∅ →
  window (rvi s') = ∅ ∧ metrics (rvi s') = metrics (rvi s).
Proof.
  intros Hsel Hmax HN Hw. destruct b.
  - apply Next_true_inv in HN as (Hle & Hload).
    set (c := add64 (current (rvi s)) (step (rvi s))) in *.
    pose proof (wrap64_range (current (rvi s) + step (rvi s))) as Hc.
    fold (add64 (current (rvi s)) (step (rvi s))) in Hc. fold c in Hc.
    assert (Hsub : sub64 c (selRange (rvi s)) = c - selRange (rvi s)).
    { unfold sub64. apply wrap64_id. lia. }
    rewrite Hsub in Hload.
    apply load_empty_window in Hload as [-> ->]; [|lia].
    split; [by apply popBack_empty_window|].
    by destruct (popBack_frame (c - selRange (rvi s)) (set_rvi s (set_current (rvi s) c)))
      as (_ & _ & _ & _ & _ & ->).
  - by apply Next_false_inv in HN as (_ & ->).
Qed.

Lemma Next_returns_empty_selector fuel s :
  selRange (rvi s) ≤ 0 → end_ (rvi s) - selRange (rvi s) ≤ max_int64 →
  (length (SeriesIterator.pending (iter (rvi s))) < fuel)%nat →
  ∃ b s', Next ParseMetric fuel s = Some (b, s').
Proof.
  intros Hsel Hmax Hlen. unfold Next. simpl.
  set (c := add64 (current (rvi s)) (step (rvi s))).
  destruct (c >? end_ (rvi s)) eqn:E; [by eexists _, _|].
  pose proof (wrap64_range (current (rvi s) + step (rvi s))) as Hc.
  fold (add64 (current (rvi s)) (step (rvi s))) in Hc. fold c in Hc.
  assert (Hsub : sub64 c (selRange (rvi s)) = c - selRange (rvi s)).
  { unfold sub64. apply wrap64_id. lia. }
  rewrite Hsub.
  set (s1 := popBack _ _).
  assert (Hit : iter (rvi s1) = iter (rvi s)).
  { unfold s1. by destruct (popBack_frame (c - selRange (rvi s))
      (set_rvi s (set_current (rvi s) c))) as (-> & _). }
  destruct (load_terminates_resolvable ParseMetric fuel (c - selRange (rvi s)) c s1)
    as (s' & -> & _).
  - rewrite Hit. apply Forall_forall. intros x _ ?. lia.
  - by rewrite Hit.
  - by eexists _, _.
Qed.

(** X15. A selector duration of 0 or less selects nothing.  For an
    iterator constructed with such a duration, [end - selRange] within
    int64, whatever the source and the step: in every state that calls of
    [Next] reach the window store and the labels cache are empty, so
    [ParseMetric] has never succeeded in storing anything and [At] returns
    an empty vector; and every call of [Next] returns, within one loop
    iteration per pending sample and one more, also when fingerprints of
    the source do not parse. *)
Theorem empty_selector_selects_nothing (it : SeriesIterator.t) (sel st start e : Z)
    (pool : list promql.Series) (s : state) (fuel : nat)
    (aggregator : RangeVectorAggregator) :
  sel ≤ 0 → e - sel ≤ max_int64 →
  reach ParseMetric (mkState (newRangeVectorIterator it sel st start e) pool) s →
  (length (SeriesIterator.pending (iter (rvi s))) < fuel)%nat →
  window (rvi s) = ∅
  ∧ metrics (rvi s) = ∅
  ∧ (At aggregator s).1.2 = []
  ∧ ∃ b s', Next ParseMetric fuel s = Some (b, s').
Proof.
  intros Hsel Hmax Hreach Hlen.
  pose proof (reach_config _ _ _ Hreach) as (Hsel' & _ & He'). simpl in Hsel', He'.
  assert (Hempty : window (rvi s) = ∅ ∧ metrics (rvi s) = ∅).
  { remember (mkState (newRangeVectorIterator it sel st start e) pool) as s0 eqn:Hs0.
    clear Hlen. induction Hreach as [s0|s0 s1 fuel' b s2 Hreach IH HN].
    - by subst s0.
    - pose proof (reach_config _ _ _ Hreach) as (Hs1 & _ & He1).
      subst s0. simpl in Hs1, He1.
      destruct (IH eq_refl Hs1 He1) as [Hw Hm].
      apply Next_empty_selector in HN as [? Hm']; rewrite ?Hs1, ?He1; try done.
      split; [done|]. by rewrite Hm'. }
  destruct Hempty as [Hw Hm]. split; [done|]. split; [done|]. split.
  - unfold At. rewrite At_over_eq. cbn [fst snd]. by rewrite Hw, map_to_list_empty.
  - apply Next_returns_empty_selector; rewrite ?Hsel', ?He'; done.
Qed.

End EmptySelector.

(** ** Concrete runs of the further properties *)

Lemma scenario_reach_first : reach parseOnlyA scenario_init scenario_first.
Proof.
  eapply (reach_Next parseOnlyA scenario_init scenario_init 2 true).
  - apply reach_refl.
  - vm_compute. reflexivity.
Defined.

Lemma window_entries_never_empty_witness :
  nonempty_entries scenario_first
  ∧ Forall (λ series, promql.Points series ≠ [])
           (map_to_list (window (rvi scenario_first))).*2.
Proof.
  apply (window_entries_never_empty parseOnlyA (SeriesIterator.of_list scenario_source)
           5 5 0 10 [] scenario_first).
  - exact scenario_reach_first.
  - apply window_order_canonical.
Defined.

Lemma window_metric_is_parsed_fingerprint_witness :
  metrics (rvi scenario_first) !! "A" = Some labelsA
  ∧ parseOnlyA "A" = Some labelsA.
Proof.
  apply (window_metric_is_parsed_fingerprint parseOnlyA
           (SeriesIterator.of_list scenario_source) 5 5 0 10 [] scenario_first "A"
           (promql.mkSeries labelsA [promql.mkPoint 0 1%float])).
  - exact scenario_reach_first.
  - vm_compute. reflexivity.
Defined.

Lemma labels_cache_only_grows_witness :
  metrics (rvi scenario_third) !! "A" = Some labelsA.
Proof.
  apply (labels_cache_only_grows parseOnlyA scenario_first scenario_third "A" labelsA).
  - eapply (reach_Next parseOnlyA scenario_first _ 2 true);
      [eapply (reach_Next parseOnlyA scenario_first scenario_first 2 true);
         [apply reach_refl|vm_compute; reflexivity]
      |vm_compute; reflexivity].
  - vm_compute. reflexivity.
Defined.

Lemma source_only_advances_witness :
  ∃ cs,
    SeriesIterator.pending (iter (rvi scenario_init))
    = cs ++ SeriesIterator.pending (iter (rvi scenario_first))
    ∧ SeriesIterator.consumed (iter (rvi scenario_first))
      = reverse cs ++ SeriesIterator.consumed (iter (rvi scenario_init))
    ∧ SeriesIterator.nextCalls (iter (rvi scenario_first))
      = (SeriesIterator.nextCalls (iter (rvi scenario_init)) + length cs)%nat
    ∧ source_of (iter (rvi scenario_first)) = source_of (iter (rvi scenario_init)).
Proof.
  apply (source_only_advances parseOnlyA scenario_init scenario_first).
  exact scenario_reach_first.
Defined.

Lemma popBack_twice_witness :
  rvi (popBack 3 (popBack 0 two_entries)) = rvi (popBack 3 two_entries).
Proof.
  apply (popBack_twice 0 3 two_entries).
  - lia.
  - apply window_keys_canonical.
  - apply window_keys_canonical.
  - apply window_keys_canonical.
Defined.

Lemma popBack_keeps_fresh_entries_witness :
  popBack (-5) scenario_first = scenario_first.
Proof.
  apply (popBack_keeps_fresh_entries _ (-5) scenario_first).
  intros fp series H. unfold scenario_first in H. cbn [rvi window] in H.
  apply lookup_singleton_Some in H as [_ <-].
  exists (promql.mkPoint 0 1%float), []. split; [reflexivity|simpl; lia].
Defined.

Lemma popBack_evicts_everything_witness :
  window (rvi (popBack 5 two_entries)) = ∅
  ∧ length (seriesPool (popBack 5 two_entries))
    = (length (seriesPool two_entries) + size (window (rvi two_entries)))%nat
  ∧ ∀ x, x ∈ seriesPool (popBack 5 two_entries) →
         x ∈ seriesPool two_entries ∨ promql.Points x = [].
Proof.
  apply (popBack_evicts_everything _ 5 two_entries).
  - apply window_keys_canonical.
  - intros fp series H. unfold two_entries in H. cbn [rvi window] in H.
    apply lookup_insert_Some in H as [[_ <-]|[_ [_ <-]%lookup_singleton_Some]];
      repeat constructor; simpl; lia.
Defined.

Lemma load_returns_when_window_resolves_witness :
  ∃ s', load parseOnlyA 3 1 5 unresolved_head = Some s'
    ∧ head_after 5 (iter (rvi s')).
Proof.
  apply (load_returns_when_window_resolves parseOnlyA 3 1 5 unresolved_head).
  - apply List.Forall_cons; [simpl; intros [? _]; lia|].
    apply List.Forall_cons; [|apply List.Forall_nil].
    intros _. right. right. by eexists.
  - simpl. lia.
Defined.

Lemma position_after_calls_witness :
  current (rvi wrapping_init) = max_int64 - 4
  ∧ ∃ s', Next_n parseOnlyA 2 3 wrapping_init = Some ([true; true; false], s')
      ∧ current (rvi s') = wrap64 (min_int64 + Z.of_nat 2 * effective_step 5)
      ∧ current (rvi s') = min_int64 + 10.
Proof.
  split; [vm_compute; reflexivity|].
  assert (Hrun : ∃ s', Next_n parseOnlyA 2 3 wrapping_init
                       = Some ([true; true; false], s')).
  { eexists. vm_compute. reflexivity. }
  destruct Hrun as [s' Hrun]. exists s'. split; [exact Hrun|].
  destruct (position_after_calls parseOnlyA
              (SeriesIterator.of_list [mkSample "A" min_int64 1%float])
              5 5 min_int64 (min_int64 + 5) [] 2 2 [true; true; false] s') as [Hc _].
  - vm_compute. split; discriminate.
  - exact Hrun.
  - split; [exact Hc|]. rewrite Hc. vm_compute. reflexivity.
Defined.

Lemma number_of_steps_witness :
  ∃ sf,
    drive parseOnlyA 4 (S (Z.to_nat (10 - 0 + effective_step 5))) scenario_init
    = Some (positions (effective_step 5) 0 10, sf)
    ∧ (0 = 10 → positions (effective_step 5) 0 10 = 1%nat).
Proof.
  apply (number_of_steps parseOnlyA scenario_source 5 5 0 10 []).
  - lia.
  - vm_compute. discriminate.
  - vm_compute. discriminate.
  - vm_compute. discriminate.
  - repeat constructor; by eexists.
Defined.

Lemma window_is_source_slice_witness :
  match window (rvi scenario_first) !! "A" with
  | Some series =>
      promql.Points series
      = in_range_points scenario_source "A" (current (rvi scenario_first) - 5)
          (current (rvi scenario_first))
      ∧ promql.Points series ≠ []
  | None =>
      in_range_points scenario_source "A" (current (rvi scenario_first) - 5)
        (current (rvi scenario_first)) = []
  end.
Proof.
  apply (window_is_source_slice parseOnlyA scenario_source 5 5 0 10 []
           scenario_init scenario_first 2 "A").
  - lia.
  - vm_compute. discriminate.
  - vm_compute. discriminate.
  - vm_compute. discriminate.
  - vm_compute. discriminate.
  - repeat constructor; simpl; lia.
  - apply run_refl.
  - vm_compute. discriminate.
  - vm_compute. reflexivity.
Defined.

Lemma At_aggregates_source_slice_witness :
  promql.mkSample (promql.mkPoint 0 1%float) labelsA
    ∈ (At sum_aggregator scenario_first).1.2.
Proof.
  apply (At_aggregates_source_slice parseOnlyA scenario_source 5 5 0 10 []
           scenario_init scenario_first 2 sum_aggregator
           (map_to_list (window (rvi scenario_first))).*2
           (promql.mkSample (promql.mkPoint 0 1%float) labelsA)).
  - lia.
  - vm_compute. discriminate.
  - vm_compute. discriminate.
  - vm_compute. discriminate.
  - vm_compute. discriminate.
  - repeat constructor; simpl; lia.
  - apply run_refl.
  - vm_compute. discriminate.
  - vm_compute. reflexivity.
  - apply window_order_canonical.
  - exists "A", labelsA. split; [|split].
    + vm_compute. discriminate.
    + reflexivity.
    + vm_compute. reflexivity.
Defined.

Lemma pool_never_reaches_iterator_witness :
  match Next_n parseOnlyA 2 3 scenario_init, Next_n parseOnlyA 2 3 stale_pool_init with
  | Some (bs1, t1), Some (bs2, t2) =>
      bs1 = bs2 ∧ rvi t1 = rvi t2
      ∧ (At sum_aggregator t1).1 = (At sum_aggregator t2).1
  | None, None => True
  | _, _ => False
  end
  ∧ Next parseOnlyA 2 stale_pool_init = Some (true, scenario_first).
Proof.
  split.
  - apply (pool_never_reaches_iterator parseOnlyA 2 3 scenario_init stale_pool_init
             sum_aggregator).
    reflexivity.
  - vm_compute. reflexivity.
Defined.

Lemma At_after_exhaustion_witness :
  let s' := set_rvi instant_first (set_current (rvi instant_first) 2000000) in
  let order := [promql.mkSeries labelsA [promql.mkPoint 0 1%float]] in
  Next parseOnlyA 2 instant_init = Some (true, instant_first)
  ∧ Next parseOnlyA 2 instant_first = Some (false, s')
  ∧ (At_over order sum_aggregator instant_first).1
    = (0, [promql.mkSample (promql.mkPoint 0 1%float) labelsA])
  ∧ (At_over order sum_aggregator s').1
    = (2, [promql.mkSample (promql.mkPoint 2 1%float) labelsA])
  ∧ window_order s' order
  ∧ (At_over order sum_aggregator s').1.1
    = Z.quot (add64 (current (rvi instant_first)) (step (rvi instant_first))) 1000000
  ∧ promql.Sample_Metric <$> (At_over order sum_aggregator s').1.2
    = promql.Sample_Metric <$> (At_over order sum_aggregator instant_first).1.2
  ∧ (λ smp, promql.V (promql.Sample_Point smp)) <$> (At_over order sum_aggregator s').1.2
    = (λ smp, promql.V (promql.Sample_Point smp)) <$>
        (At_over order sum_aggregator instant_first).1.2.
Proof.
  cbv zeta.
  split; [vm_compute; reflexivity|]. split; [vm_compute; reflexivity|].
  split; [vm_compute; reflexivity|]. split; [vm_compute; reflexivity|].
  apply (At_after_exhaustion parseOnlyA 2 instant_first).
  - vm_compute. reflexivity.
  - unfold window_order, instant_first. cbn [rvi window].
    by rewrite map_to_list_singleton.
Defined.

Lemma empty_selector_selects_nothing_witness :
  Next parseOnlyA 2 zero_width_init = Some (true, zero_width_first)
  ∧ SeriesIterator.nextCalls (iter (rvi zero_width_first)) = 1%nat
  ∧ window (rvi zero_width_first) = ∅
  ∧ metrics (rvi zero_width_first) = ∅
  ∧ (At sum_aggregator zero_width_first).1.2 = []
  ∧ ∃ b s', Next parseOnlyA 2 zero_width_first = Some (b, s').
Proof.
  split; [vm_compute; reflexivity|]. split; [reflexivity|].
  apply (empty_selector_selects_nothing parseOnlyA
           (SeriesIterator.of_list [mkSample "{" 0 1%float; mkSample "{" 3 2%float])
           0 5 0 10 [] zero_width_first 2 sum_aggregator).
  - lia.
  - vm_compute. discriminate.
  - eapply (reach_Next parseOnlyA _ _ 2 true); [apply reach_refl|].
    vm_compute. reflexivity.
  - simpl. lia.
Defined.
